(** * AWS certification trainer: the quiz web application (web_app.py)

    A shallow embedding of the request handlers and of the data-access
    functions they call, followed by the properties of the session and
    mastery state machine.

    Conventions of the embedding:
    - the SQLite database is a record of tables; [question_mastery], whose
      primary key is the question id, is a finite map;
    - the Flask session is a record of optional entries, one per key, so
      that [session.get(key, default)] is [default d (field s)];
    - pseudo-random choices ([random.shuffle], SQL [RANDOM()]) and the clock
      ([CURRENT_TIMESTAMP]) are read from explicit arguments;
    - a Python exception is the [Raises] case of [outcome]. *)

From Stdlib Require Import PrimFloat Uint63 ZArith.
From stdpp Require Import gmap strings list sorting.

(** ** Python values shared by the handlers *)

Inductive exn := IndexError.

Inductive outcome (A : Type) :=
  | Returns (a : A)
  | Raises (e : exn).
Arguments Returns {A} a.
Arguments Raises {A} e.

(** [l[i]] for a non-negative index. *)
Definition py_index {A} (l : list A) (i : nat) : outcome A :=
  match l !! i with
  | Some a => Returns a
  | None => Raises IndexError
  end.

(** [s[i]] on a string: a one-character string. *)
Definition str_index (s : string) (i : nat) : outcome string :=
  match String.get i s with
  | Some c => Returns (String c EmptyString)
  | None => Raises IndexError
  end.

(** [l[:n]]: a negative bound counts from the end. *)
Definition slice_to {A} (n : Z) (l : list A) : list A :=
  if decide (0 ≤ n)%Z then take (Z.to_nat n) l
  else take (Z.to_nat (Z.of_nat (length l) + n)) l.

(** The JSON documents built by [jsonify]. *)
#[local] Set Warnings "-register-all".
Inductive json :=
  | JNull
  | JBool (b : bool)
  | JNum (n : Z)
  | JStr (s : string)
  | JArr (items : list json)
  | JObj (fields : list (string * json)).

Fixpoint assoc_get (k : string) (fields : list (string * json)) : option json :=
  match fields with
  | [] => None
  | (k', v) :: rest => if decide (k' = k) then Some v else assoc_get k rest
  end.

Definition json_get (k : string) (j : json) : option json :=
  match j with
  | JObj fields => assoc_get k fields
  | _ => None
  end.

(** ** The question and option dictionaries *)

Record OptionD := {
  opt_letter : string;
  opt_text : string;
  opt_is_correct : bool
}.

Record MasteryInfo := {
  mi_correct : Z;
  mi_incorrect : Z
}.

Record Question := {
  q_id : Z;
  q_question : string;
  q_domain : string;
  q_explanation : string;
  q_options : list OptionD;
  q_correct : list string;
  q_mastery : option MasteryInfo   (* the key added by get_missed_questions *)
}.

(** ** shuffle_options

    [random.shuffle] is the standard library's in-place Fisher-Yates loop
    [for i in reversed(range(1, len(x))): j = randbelow(i + 1); x[i], x[j] =
    x[j], x[i]].  The generator is the list of raw draws still to come. *)

Definition randbelow (n : nat) (g : list nat) : nat * list nat :=
  (hd 0 g `mod` n, tail g).

Definition swap {A} (i j : nat) (x : list A) : list A :=
  match x !! i, x !! j with
  | Some a, Some b => <[j:=a]> (<[i:=b]> x)
  | _, _ => x
  end.

Fixpoint shuffle_from {A} (i : nat) (x : list A) (g : list nat)
  : list A * list nat :=
  match i with
  | 0 => (x, g)
  | S i' =>
      let '(j, g') := randbelow (S i) g in
      shuffle_from i' (swap i j x) g'
  end.

Definition random_shuffle {A} (x : list A) (g : list nat) : list A * list nat :=
  shuffle_from (length x - 1) x g.

Definition letters : string := "ABCDEFGHIJ".

(** The [for i, opt in enumerate(shuffled)] loop, from index [i] on. *)
Fixpoint relabel (i : nat) (shuffled : list OptionD)
    (new_options : list OptionD) (correct : list string)
  : outcome (list OptionD * list string) :=
  match shuffled with
  | [] => Returns (new_options, correct)
  | opt :: rest =>
      match str_index letters i with
      | Raises e => Raises e
      | Returns new_letter =>
          let new_options :=
            new_options ++ [ {| opt_letter := new_letter;
                                opt_text := opt_text opt;
                                opt_is_correct := opt_is_correct opt |} ] in
          let correct :=
            if opt_is_correct opt then correct ++ [new_letter] else correct in
          relabel (S i) rest new_options correct
      end
  end.

(** The argument [options] is a reference into the store [h] of list
    objects; [options.copy()] allocates a new list and [random.shuffle]
    updates that new list in place.  The result carries the store and the
    generator as they are left. *)
Definition shuffle_options (options : nat) (h : gmap nat (list OptionD))
    (g : list nat)
  : outcome (list OptionD * list string) * gmap nat (list OptionD) * list nat :=
  let shuffled := fresh (dom h) in
  let h := <[shuffled := h !!! options]> h in
  let '(x, g) := random_shuffle (h !!! shuffled) g in
  let h := <[shuffled := x]> h in
  (relabel 0 (h !!! shuffled) [] [], h, g).

(** ** The database *)

Record QuestionRow := {
  row_id : Z;
  row_question_text : string;
  row_domain : string;
  row_explanation : option string      (* NULL is None *)
}.

Record OptionRow := {
  orow_question_id : Z;
  orow_option_letter : string;
  orow_option_text : string;
  orow_is_correct : bool
}.

Record MasteryRow := {
  correct_count : Z;
  incorrect_count : Z;
  last_answered : Z
}.

Record DB := {
  tbl_questions : list QuestionRow;
  tbl_options : list OptionRow;
  tbl_user_progress : list (Z * bool);
  tbl_question_mastery : gmap Z MasteryRow
}.

(** [ORDER BY RANDOM()]: every row gets the next draw as its sort key. *)
Definition key_le {A} (a b : Z * A) : Prop := (a.1 ≤ b.1)%Z.

#[global] Instance key_le_dec {A} : RelDecision (@key_le A) :=
  λ a b, decide (a.1 ≤ b.1)%Z.

Definition order_by_random {A} (rnd : nat → Z) (rows : list A) : list A :=
  (merge_sort key_le (imap (λ i r, (rnd i, r)) rows)).*2.

(** [bool(domain) and domain != 'all'] *)
Definition domain_selected (domain : option string) : option string :=
  match domain with
  | Some d => if decide (d ≠ "" ∧ d ≠ "all") then Some d else None
  | None => None
  end.

Definition letter_le (a b : OptionRow) : Prop :=
  String.leb (orow_option_letter a) (orow_option_letter b) = true.

#[global] Instance letter_le_dec : RelDecision letter_le :=
  λ a b, decide (String.leb (orow_option_letter a) (orow_option_letter b) = true).

(** The options of one question, [ORDER BY option_letter], as dictionaries. *)
Definition fetch_options (db : DB) (question_id : Z) : list OptionD :=
  (λ opt, {| opt_letter := orow_option_letter opt;
             opt_text := orow_option_text opt;
             opt_is_correct := orow_is_correct opt |})
  <$> merge_sort letter_le
        (filter (λ opt, orow_question_id opt = question_id) (tbl_options db)).

Definition correct_letters (options : list OptionD) : list string :=
  opt_letter <$> filter (λ opt, opt_is_correct opt = true) options.

Definition build_question (db : DB) (row : QuestionRow)
    (mastery : option MasteryInfo) : Question :=
  let options := fetch_options db (row_id row) in
  {| q_id := row_id row;
     q_question := row_question_text row;
     q_domain := row_domain row;
     q_explanation := default "" (row_explanation row);
     q_options := options;
     q_correct := correct_letters options;
     q_mastery := mastery |}.

(** A limit that is [None] or [0] is falsy. *)
Definition apply_limit {A} (limit : option Z) (rows : list A) : list A :=
  match limit with
  | Some n => if decide (n ≠ 0%Z) then slice_to n rows else rows
  | None => rows
  end.

Definition get_questions (db : DB) (domain : option string) (limit : option Z)
    (rnd : nat → Z) : list Question :=
  let rows :=
    match domain_selected domain with
    | Some d =>
        order_by_random rnd (filter (λ r, row_domain r = d) (tbl_questions db))
    | None => order_by_random rnd (tbl_questions db)
    end in
  let rows := apply_limit limit rows in
  (λ row, build_question db row None) <$> rows.

Definition save_progress (db : DB) (question_id : Z) (is_correct : bool)
    (now : Z) : DB :=
  let p1 := if is_correct then 1%Z else 0%Z in
  let p2 := if is_correct then 0%Z else 1%Z in
  let p3 := if is_correct then 1%Z else 0%Z in
  let p4 := if is_correct then 0%Z else 1%Z in
  {| tbl_questions := tbl_questions db;
     tbl_options := tbl_options db;
     tbl_user_progress := tbl_user_progress db ++ [(question_id, is_correct)];
     tbl_question_mastery :=
       match tbl_question_mastery db !! question_id with
       | None =>
           <[question_id := {| correct_count := p1;
                               incorrect_count := p2;
                               last_answered := now |}]>
             (tbl_question_mastery db)
       | Some m =>
           <[question_id := {| correct_count := (correct_count m + p3)%Z;
                               incorrect_count := (incorrect_count m + p4)%Z;
                               last_answered := now |}]>
             (tbl_question_mastery db)
       end |}.

Definition get_mastery_info (db : DB) (question_id : Z) : MasteryInfo :=
  match tbl_question_mastery db !! question_id with
  | Some row => {| mi_correct := correct_count row;
                   mi_incorrect := incorrect_count row |}
  | None => {| mi_correct := 0; mi_incorrect := 0 |}
  end.

(** A row of [questions q INNER JOIN question_mastery m] with its draw. *)
Record MissedRow := {
  mr_question : QuestionRow;
  mr_correct_count : Z;
  mr_incorrect_count : Z;
  mr_random : Z
}.

(** [ORDER BY m.incorrect_count DESC, m.correct_count ASC, RANDOM()] *)
Definition missed_le (a b : MissedRow) : Prop :=
  (mr_incorrect_count b < mr_incorrect_count a)%Z
  ∨ (mr_incorrect_count a = mr_incorrect_count b
     ∧ ((mr_correct_count a < mr_correct_count b)%Z
        ∨ (mr_correct_count a = mr_correct_count b
           ∧ (mr_random a ≤ mr_random b)%Z))).

#[global] Instance missed_le_dec : RelDecision missed_le.
Proof. intros a b. unfold missed_le. apply _. Defined.

Definition join_mastery (db : DB) (q : QuestionRow)
  : option (QuestionRow * MasteryRow) :=
  match tbl_question_mastery db !! row_id q with
  | Some m => if decide (correct_count m < 4)%Z then Some (q, m) else None
  | None => None
  end.

Definition missed_rows (db : DB) (rnd : nat → Z) : list MissedRow :=
  merge_sort missed_le
    (imap (λ i '(q, m), {| mr_question := q;
                           mr_correct_count := correct_count m;
                           mr_incorrect_count := incorrect_count m;
                           mr_random := rnd i |})
          (omap (join_mastery db) (tbl_questions db))).

Definition get_missed_questions (db : DB) (rnd : nat → Z) : list Question :=
  (λ row, build_question db (mr_question row)
            (Some {| mi_correct := mr_correct_count row;
                     mi_incorrect := mr_incorrect_count row |}))
  <$> missed_rows db rnd.

Definition clear_progress (db : DB) : DB :=
  {| tbl_questions := tbl_questions db;
     tbl_options := tbl_options db;
     tbl_user_progress := [];
     tbl_question_mastery := ∅ |}.

(** ** The session *)

Record AnswerRecord := {
  ar_question_id : Z;
  ar_selected : list string;
  ar_correct : list string;    (* list(correct): the set's elements *)
  ar_is_correct : bool
}.

Record Session := {
  sess_questions : option (list Question);
  sess_current_index : option nat;
  sess_score : option nat;
  sess_answers : option (list AnswerRecord);
  sess_domain : option string
}.

(** The session of a client that has not started a quiz: no key is set. *)
Definition empty_session : Session :=
  {| sess_questions := None; sess_current_index := None; sess_score := None;
     sess_answers := None; sess_domain := None |}.

Definition set_current_index (s : Session) (i : nat) : Session :=
  {| sess_questions := sess_questions s; sess_current_index := Some i;
     sess_score := sess_score s; sess_answers := sess_answers s;
     sess_domain := sess_domain s |}.

Definition set_score (s : Session) (n : nat) : Session :=
  {| sess_questions := sess_questions s;
     sess_current_index := sess_current_index s;
     sess_score := Some n; sess_answers := sess_answers s;
     sess_domain := sess_domain s |}.

Definition set_answers (s : Session) (a : list AnswerRecord) : Session :=
  {| sess_questions := sess_questions s;
     sess_current_index := sess_current_index s;
     sess_score := sess_score s; sess_answers := Some a;
     sess_domain := sess_domain s |}.

(** The five assignments that start a quiz. *)
Definition start_session (questions : list Question) (domain : string)
  : Session :=
  {| sess_questions := Some questions; sess_current_index := Some 0;
     sess_score := Some 0; sess_answers := Some [];
     sess_domain := Some domain |}.

(** ** JSON views *)

Definition jsonify_option (opt : OptionD) : json :=
  JObj [("letter", JStr (opt_letter opt));
        ("text", JStr (opt_text opt));
        ("is_correct", JBool (opt_is_correct opt))].

Definition jsonify_mastery (m : MasteryInfo) : json :=
  JObj [("correct", JNum (mi_correct m));
        ("incorrect", JNum (mi_incorrect m))].

(** A question dictionary holds the keys that get_questions gives it, and
    the key 'mastery' when it comes from get_missed_questions. *)
Definition jsonify_question (q : Question) : json :=
  JObj ([("id", JNum (q_id q));
         ("question", JStr (q_question q));
         ("domain", JStr (q_domain q));
         ("explanation", JStr (q_explanation q));
         ("options", JArr (jsonify_option <$> q_options q));
         ("correct", JArr (JStr <$> q_correct q))]
        ++ match q_mastery q with
           | Some m => [("mastery", jsonify_mastery m)]
           | None => []
           end).

(** ** Rendered pages: the template and its arguments *)

Record DomainScore := {
  ds_correct : nat;
  ds_total : nat
}.

Record ResultsView := {
  r_score : nat;
  r_total : nat;
  r_percentage : float;
  r_passed : bool;
  r_domain_scores : gmap string DomainScore;
  r_answers : list AnswerRecord;
  r_questions : list Question
}.

Inductive Page :=
  | ErrorPage (message : string)
  | QuizPage (question : Question) (current total : nat) (domain : string)
  | ResultsPage (view : ResultsView).

(** ** Request handlers *)

Definition no_questions_message : string := "No questions available".
Definition no_missed_message : string :=
  "No missed questions to practice! Great job!".
Definition progress_cleared_message : string :=
  "Progress cleared! All missed questions have been reset.".

(** GET /quiz.  [domain_arg] and [limit_arg] are the query parameters; a
    limit that is absent or not an integer is [None]. *)
Definition quiz (db : DB) (s : Session) (domain_arg : option string)
    (limit_arg : option Z) (rnd : nat → Z) : Session * outcome Page :=
  let domain := default "all" domain_arg in
  let limit := limit_arg in
  let questions := get_questions db (Some domain) limit rnd in
  match questions with
  | [] => (s, Returns (ErrorPage no_questions_message))
  | _ :: _ =>
      let s := start_session questions domain in
      match py_index questions 0 with
      | Raises e => (s, Raises e)
      | Returns q => (s, Returns (QuizPage q 1 (length questions) domain))
      end
  end.

Definition quiz_completed : json := JObj [("error", JStr "Quiz completed")].

(** POST /answer.  [data_selected] is the 'selected' entry of the request
    body, if it has one. *)
Definition answer (db : DB) (s : Session) (data_selected : option (list string))
    (now : Z) : DB * Session * outcome json :=
  let selected := default [] data_selected in
  let questions := default [] (sess_questions s) in
  let current_index := default 0 (sess_current_index s) in
  if decide (length questions ≤ current_index) then
    (db, s, Returns quiz_completed)
  else
    match py_index questions current_index with
    | Raises e => (db, s, Raises e)
    | Returns question =>
        let correct : gset string := list_to_set (q_correct question) in
        let selected_set : gset string := list_to_set selected in
        let is_correct := bool_decide (correct = selected_set) in
        let s :=
          if is_correct then set_score s (default 0 (sess_score s) + 1)
          else s in
        let answers := default [] (sess_answers s) in
        let answers :=
          answers ++ [ {| ar_question_id := q_id question;
                          ar_selected := selected;
                          ar_correct := elements correct;
                          ar_is_correct := is_correct |} ] in
        let s := set_answers s answers in
        let db := save_progress db (q_id question) is_correct now in
        let mastery := get_mastery_info db (q_id question) in
        (db, s,
         Returns (JObj [("is_correct", JBool is_correct);
                        ("correct_answers", JArr (JStr <$> elements correct));
                        ("explanation", JStr (q_explanation question));
                        ("mastery", jsonify_mastery mastery)]))
    end.

(** GET /next *)
Definition next_question (s : Session) : Session * outcome json :=
  let questions := default [] (sess_questions s) in
  let current_index := default 0 (sess_current_index s) + 1 in
  let s := set_current_index s current_index in
  if decide (length questions ≤ current_index) then
    (s, Returns (JObj [("completed", JBool true)]))
  else
    match py_index questions current_index with
    | Raises e => (s, Raises e)
    | Returns question =>
        (s, Returns (JObj [("completed", JBool false);
                           ("question", jsonify_question question);
                           ("current", JNum (Z.of_nat (current_index + 1)));
                           ("total", JNum (Z.of_nat (length questions)))]))
    end.

(** [int / int * 100]: true division yields a binary64 float.  For operands
    below 2^53 (any score or question count a session can hold) the quotient
    is the IEEE division of the converted operands. *)
Definition float_of_nat (n : nat) : float :=
  PrimFloat.of_uint63 (Uint63.of_Z (Z.of_nat n)).

Definition percentage_of (score total : nat) : float :=
  if decide (0 < total) then
    PrimFloat.mul (PrimFloat.div (float_of_nat score) (float_of_nat total))
                  100%float
  else 0%float.

(** The body of the breakdown loop for one answer. *)
Definition tally (domain_scores : gmap string DomainScore) (q_domain : string)
    (is_correct : bool) : gmap string DomainScore :=
  let domain_scores :=
    match domain_scores !! q_domain with
    | None => <[q_domain := {| ds_correct := 0; ds_total := 0 |}]> domain_scores
    | Some _ => domain_scores
    end in
  let domain_scores :=
    alter (λ d, {| ds_correct := ds_correct d; ds_total := ds_total d + 1 |})
          q_domain domain_scores in
  if is_correct then
    alter (λ d, {| ds_correct := ds_correct d + 1; ds_total := ds_total d |})
          q_domain domain_scores
  else domain_scores.

(** [for i, answer in enumerate(answers)], from index [i] on. *)
Fixpoint domain_breakdown (questions : list Question) (i : nat)
    (answers : list AnswerRecord) (domain_scores : gmap string DomainScore)
  : outcome (gmap string DomainScore) :=
  match answers with
  | [] => Returns domain_scores
  | answer :: rest =>
      match py_index questions i with
      | Raises e => Raises e
      | Returns q =>
          domain_breakdown questions (S i) rest
            (tally domain_scores (q_domain q) (ar_is_correct answer))
      end
  end.

(** GET /results: reads the session and leaves it as it is. *)
Definition results (s : Session) : outcome Page :=
  let questions := default [] (sess_questions s) in
  let answers := default [] (sess_answers s) in
  let score := default 0 (sess_score s) in
  let total := length questions in
  let percentage := percentage_of score total in
  let passed := PrimFloat.leb 70%float percentage in
  match domain_breakdown questions 0 answers ∅ with
  | Raises e => Raises e
  | Returns domain_scores =>
      Returns (ResultsPage {| r_score := score;
                              r_total := total;
                              r_percentage := percentage;
                              r_passed := passed;
                              r_domain_scores := domain_scores;
                              r_answers := answers;
                              r_questions := questions |})
  end.

(** GET /quiz/missed *)
Definition quiz_missed (db : DB) (s : Session) (rnd : nat → Z)
  : Session * outcome Page :=
  let questions := get_missed_questions db rnd in
  match questions with
  | [] => (s, Returns (ErrorPage no_missed_message))
  | _ :: _ =>
      let s := start_session questions "Missed Questions" in
      match py_index questions 0 with
      | Raises e => (s, Raises e)
      | Returns q =>
          (s, Returns (QuizPage q 1 (length questions) "Missed Questions"))
      end
  end.

(** ** Sequences of requests *)

Record World := {
  w_db : DB;
  w_session : Session
}.

Inductive Request :=
  | GetQuiz (domain : option string) (limit : option Z) (rnd : nat → Z)
  | GetQuizMissed (rnd : nat → Z)
  | PostAnswer (selected : option (list string)) (now : Z)
  | GetNext
  | GetResults
  | GetClearProgress.

Definition handle (w : World) (r : Request) : World :=
  match r with
  | GetQuiz domain limit rnd =>
      {| w_db := w_db w;
         w_session := (quiz (w_db w) (w_session w) domain limit rnd).1 |}
  | GetQuizMissed rnd =>
      {| w_db := w_db w;
         w_session := (quiz_missed (w_db w) (w_session w) rnd).1 |}
  | PostAnswer selected now =>
      let '(db, s, _) := answer (w_db w) (w_session w) selected now in
      {| w_db := db; w_session := s |}
  | GetNext =>
      {| w_db := w_db w; w_session := (next_question (w_session w)).1 |}
  | GetResults => w
  | GetClearProgress =>
      {| w_db := clear_progress (w_db w); w_session := w_session w |}
  end.

Definition run (w : World) (rs : list Request) : World := foldl handle w rs.

(** The session entries as the handlers read them. *)
Definition questions_of (s : Session) : list Question :=
  default [] (sess_questions s).
Definition current_index_of (s : Session) : nat :=
  default 0 (sess_current_index s).
Definition score_of (s : Session) : nat := default 0 (sess_score s).
Definition answers_of (s : Session) : list AnswerRecord :=
  default [] (sess_answers s).

(** ** Definitions used to state the properties *)

Definition letter_list : list string :=
  ["A"; "B"; "C"; "D"; "E"; "F"; "G"; "H"; "I"; "J"].

Definition option_content (opt : OptionD) : string * bool :=
  (opt_text opt, opt_is_correct opt).

Definition with_letter (l : string) (opt : OptionD) : OptionD :=
  {| opt_letter := l; opt_text := opt_text opt;
     opt_is_correct := opt_is_correct opt |}.

(** Two letter lists denote the same set. *)
Definition same_letters (c s : list string) : Prop := ∀ l, l ∈ c ↔ l ∈ s.

(** The score is the number of logged answers flagged correct. *)
Definition score_consistent (s : Session) : Prop :=
  score_of s
  = length (filter (λ a, ar_is_correct a = true) (answers_of s)).

Definition index_in_bounds (s : Session) : Prop :=
  current_index_of s ≤ length (questions_of s).

Definition fresh_world (db : DB) : World :=
  {| w_db := db; w_session := empty_session |}.

Definition is_next (r : Request) : bool :=
  match r with
  | GetNext => true
  | _ => false
  end.

(** GET /next is only requested while a question is still open. *)
Fixpoint paced (w : World) (rs : list Request) : bool :=
  match rs with
  | [] => true
  | r :: rs =>
      (if is_next r
       then bool_decide (current_index_of (w_session w)
                         < length (questions_of (w_session w)))
       else true)
      && paced (handle w r) rs
  end.

(** A question view that carries no correctness information. *)
Definition hides_correctness (view : json) : Prop :=
  json_get "correct" view = None
  ∧ ∀ opts o, json_get "options" view = Some (JArr opts) →
              o ∈ opts → json_get "is_correct" o = None.

(** The answered positions: question [i] paired with answer [i]. *)
Definition answered (s : Session) : list (Question * AnswerRecord) :=
  zip (questions_of s) (answers_of s).

Definition breakdown_entry (s : Session) (d : string) : option DomainScore :=
  let attempted := length (filter (λ p, q_domain p.1 = d) (answered s)) in
  if decide (attempted = 0) then None
  else
    Some {| ds_correct :=
              length (filter (λ p, q_domain p.1 = d ∧ ar_is_correct p.2 = true)
                             (answered s));
            ds_total := attempted |}.

Definition counters_nonneg (db : DB) : Prop :=
  ∀ q m, tbl_question_mastery db !! q = Some m →
         (0 ≤ correct_count m)%Z ∧ (0 ≤ incorrect_count m)%Z.

(** A question row that has a mastery row with fewer than 4 correct answers. *)
Definition has_open_mastery (db : DB) (q : QuestionRow) : Prop :=
  ∃ m, tbl_question_mastery db !! row_id q = Some m ∧ (correct_count m < 4)%Z.

#[global] Instance has_open_mastery_dec db q : Decision (has_open_mastery db q).
Proof.
  unfold has_open_mastery.
  destruct (tbl_question_mastery db !! row_id q) as [m|].
  - destruct (decide (correct_count m < 4)%Z) as [Hlt|Hge].
    + left. exists m. split; [reflexivity|exact Hlt].
    + right. intros (m' & Heq & Hlt). injection Heq as <-. exact (Hge Hlt).
  - right. intros (m' & Heq & _). discriminate Heq.
Defined.

(** The order of the missed-question list, read off the questions. *)
Definition mastery_order (a b : Question) : Prop :=
  match q_mastery a, q_mastery b with
  | Some ma, Some mb =>
      (mi_incorrect mb < mi_incorrect ma)%Z
      ∨ (mi_incorrect ma = mi_incorrect mb ∧ (mi_correct ma ≤ mi_correct mb)%Z)
  | _, _ => False
  end.

(** The rows the domain filter lets through. *)
Definition matching_rows (db : DB) (domain : option string)
  : list QuestionRow :=
  match domain_selected domain with
  | Some d => filter (λ r, row_domain r = d) (tbl_questions db)
  | None => tbl_questions db
  end.

Definition response_body (o : outcome json) : json :=
  match o with
  | Returns body => body
  | Raises _ => JNull
  end.

(** ** A small database for the worked cases *)

Definition sample_row : QuestionRow :=
  {| row_id := 1; row_question_text := "Which are compute services?";
     row_domain := "Technology";
     row_explanation := Some "EC2, Lambda and ECS run code." |}.

Definition sample_db : DB :=
  {| tbl_questions :=
       [ sample_row;
         {| row_id := 2; row_question_text := "Who patches the hypervisor?";
            row_domain := "Security"; row_explanation := None |};
         {| row_id := 3; row_question_text := "Which service stores objects?";
            row_domain := "Technology";
            row_explanation := Some "S3 is object storage." |} ];
     tbl_options :=
       [ {| orow_question_id := 1; orow_option_letter := "A";
            orow_option_text := "EC2"; orow_is_correct := true |};
         {| orow_question_id := 1; orow_option_letter := "B";
            orow_option_text := "Lambda"; orow_is_correct := true |};
         {| orow_question_id := 1; orow_option_letter := "C";
            orow_option_text := "ECS"; orow_is_correct := true |};
         {| orow_question_id := 1; orow_option_letter := "D";
            orow_option_text := "S3"; orow_is_correct := false |};
         {| orow_question_id := 2; orow_option_letter := "A";
            orow_option_text := "AWS"; orow_is_correct := true |};
         {| orow_question_id := 2; orow_option_letter := "B";
            orow_option_text := "The customer"; orow_is_correct := false |};
         {| orow_question_id := 3; orow_option_letter := "A";
            orow_option_text := "EBS"; orow_is_correct := false |};
         {| orow_question_id := 3; orow_option_letter := "B";
            orow_option_text := "S3"; orow_is_correct := true |} ];
     tbl_user_progress := [];
     tbl_question_mastery := ∅ |}.

(** Draws that keep the table order. *)
Definition sample_draws : nat → Z := Z.of_nat.

(** The first question, whose correct letters are A, B and C. *)
Definition sample_question : Question := build_question sample_db sample_row None.

Definition sample_options : list OptionD := q_options sample_question.

(** The session right after GET /quiz on the sample database. *)
Definition sample_session : Session :=
  (quiz sample_db empty_session None None sample_draws).1.

(** The same session once the first question has been answered. *)
Definition sample_session_answered : Session :=
  (answer sample_db sample_session (Some ["A"; "B"; "C"]) 100).1.2.

(** A quiz in which GET /next follows every answer. *)
Definition sample_requests : list Request :=
  [ GetQuiz None None sample_draws;
    PostAnswer (Some ["C"; "B"; "A"]) 100; GetNext;
    PostAnswer (Some ["A"]) 101; GetNext;
    PostAnswer (Some ["B"]) 102; GetNext ].

(** A one-question quiz whose question is submitted twice. *)
Definition double_submission : list Request :=
  [ GetQuiz None (Some 1%Z) sample_draws;
    PostAnswer (Some ["A"]) 100;
    PostAnswer (Some ["A"]) 101 ].

(** GET /next requested again after the quiz has completed. *)
Definition repeated_next : list Request :=
  [ GetQuiz None None sample_draws; GetNext; GetNext; GetNext; GetNext ].

(** ** Statistics and review *)

Record DomainCount := {
  dc_name : string;
  dc_count : nat
}.

Record Stats := {
  st_total : nat;
  st_domains : list DomainCount;
  st_needs_practice : nat;
  st_mastered_count : nat;
  st_wrong_count : nat
}.

(** [ORDER BY count DESC] *)
Definition count_ge (a b : DomainCount) : Prop := dc_count b ≤ dc_count a.

#[global] Instance count_ge_dec : RelDecision count_ge :=
  λ a b, decide (dc_count b ≤ dc_count a).

(** [SELECT domain, COUNT( * ) FROM questions GROUP BY domain] *)
Definition group_by_domain (rows : list QuestionRow) : list DomainCount :=
  (λ d, {| dc_name := d;
           dc_count := length (filter (λ r, row_domain r = d) rows) |})
  <$> remove_dups (row_domain <$> rows).

(** [SELECT COUNT( * ) FROM question_mastery WHERE ...] *)
Definition count_mastery (P : MasteryRow → Prop) `{!∀ m, Decision (P m)}
    (db : DB) : nat :=
  length (filter (λ kv, P kv.2) (map_to_list (tbl_question_mastery db))).

Definition get_stats (db : DB) : Stats :=
  {| st_total := length (tbl_questions db);
     st_domains := merge_sort count_ge (group_by_domain (tbl_questions db));
     st_needs_practice :=
       count_mastery (λ m, (correct_count m < 4)%Z
                           ∧ ((correct_count m > 0)%Z
                              ∨ (incorrect_count m > 0)%Z)) db;
     st_mastered_count := count_mastery (λ m, (correct_count m >= 4)%Z) db;
     st_wrong_count :=
       count_mastery (λ m, (incorrect_count m > 0)%Z
                           ∧ (correct_count m < 4)%Z) db |}.

Record ReviewEntry := {
  rv_number : nat;
  rv_question : Question;
  rv_answer : AnswerRecord
}.

(** GET /review: the [review_data] handed to the template. *)
Definition review (s : Session) : list ReviewEntry :=
  let questions := default [] (sess_questions s) in
  let answers := default [] (sess_answers s) in
  imap (λ i p, {| rv_number := i + 1;
                  rv_question := p.1;
                  rv_answer := p.2 |})
       (zip questions answers).

(** ** Further definitions used to state properties *)

(** A quiz taken in turn: each submission is followed by GET /next. *)
Definition rounds (subs : list (option (list string) * Z)) : list Request :=
  subs ≫= (λ sub, [PostAnswer sub.1 sub.2; GetNext]).

(** Requests that do not start a quiz. *)
Definition starts_quiz (r : Request) : bool :=
  match r with
  | GetQuiz _ _ _ | GetQuizMissed _ => true
  | _ => false
  end.

(** The mastery counters of every question are the numbers of its correct
    and incorrect rows in the answer history. *)
Definition history_consistent (db : DB) : Prop :=
  ∀ q,
    mi_correct (get_mastery_info db q)
    = Z.of_nat (length (filter (λ p, p = (q, true)) (tbl_user_progress db)))
    ∧ mi_incorrect (get_mastery_info db q)
      = Z.of_nat (length (filter (λ p, p = (q, false)) (tbl_user_progress db))).

(** Every mastery row records at least one answer. *)
Definition rows_attempted (db : DB) : Prop :=
  ∀ q m, tbl_question_mastery db !! q = Some m →
         (0 ≤ correct_count m)%Z ∧ (0 ≤ incorrect_count m)%Z
         ∧ (0 < correct_count m + incorrect_count m)%Z.

(** An answer record whose verdict is the set comparison of its lists. *)
Definition verdict_sound (a : AnswerRecord) : Prop :=
  ar_is_correct a = true ↔ same_letters (ar_correct a) (ar_selected a).

Definition option_order (a b : OptionD) : Prop :=
  String.leb (opt_letter a) (opt_letter b) = true.

Definition option_of_row (opt : OptionRow) : OptionD :=
  {| opt_letter := orow_option_letter opt;
     opt_text := orow_option_text opt;
     opt_is_correct := orow_is_correct opt |}.

Definition add_outcome (m : MasteryInfo) (is_correct : bool) : MasteryInfo :=
  {| mi_correct := mi_correct m + (if is_correct then 1 else 0);
     mi_incorrect := mi_incorrect m + (if is_correct then 0 else 1) |}.

(** ** Further worked inputs *)

Definition sample_security_question : Question :=
  build_question sample_db
    {| row_id := 2; row_question_text := "Who patches the hypervisor?";
       row_domain := "Security"; row_explanation := None |} None.

(** The record logged for the selection A, B on the first sample question. *)
Definition sample_record : AnswerRecord :=
  {| ar_question_id := 1;
     ar_selected := ["A"; "B"];
     ar_correct := elements (list_to_set (C:=gset string) ["A"; "B"; "C"]);
     ar_is_correct := false |}.

Definition sample_partial_requests : list Request :=
  [ GetQuiz None None sample_draws; PostAnswer (Some ["A"; "B"]) 100 ].

(** Requests sent after the sample quiz has completed. *)
Definition sample_late_requests : list Request :=
  [ PostAnswer (Some ["A"]) 103; GetNext; GetResults; GetClearProgress ].

(** * Properties *)

(** ** shuffle_options *)

Section Shuffle.
Context {A : Type}.
Implicit Types x : list A.

Lemma insert_cons_Permutation x j (a b : A) :
  x !! j = Some b → b :: <[j:=a]> x ≡ₚ a :: x.
Proof.
  revert j. induction x as [|y x IH]; intros [|j] Hj; simplify_eq/=.
  - apply perm_swap.
  - rewrite perm_swap. rewrite (IH _ Hj). apply perm_swap.
Qed.

Lemma swap_Permutation i j x : swap i j x ≡ₚ x.
Proof.
  unfold swap.
  destruct (x !! i) as [a|] eqn:Hi; [|done].
  destruct (x !! j) as [b|] eqn:Hj; [|done].
  revert i j Hi Hj. induction x as [|y x IH]; intros [|i] [|j] Hi Hj;
    simplify_eq/=; try done.
  - by apply insert_cons_Permutation.
  - by apply insert_cons_Permutation.
  - f_equiv. by apply IH.
Qed.

Lemma shuffle_from_Permutation i x g : (shuffle_from i x g).1 ≡ₚ x.
Proof.
  revert x g. induction i as [|i IH]; intros x g; [done|].
  cbn [shuffle_from]. unfold randbelow. rewrite IH. apply swap_Permutation.
Qed.

Lemma random_shuffle_Permutation x g : (random_shuffle x g).1 ≡ₚ x.
Proof. apply shuffle_from_Permutation. Qed.
End Shuffle.

Lemma str_index_letters i :
  str_index letters i =
    match letter_list !! i with
    | Some l => Returns l
    | None => Raises IndexError
    end.
Proof. do 11 (destruct i as [|i]; [reflexivity|]). reflexivity. Qed.

Lemma correct_letters_app a b :
  correct_letters (a ++ b) = correct_letters a ++ correct_letters b.
Proof. unfold correct_letters. by rewrite filter_app, fmap_app. Qed.

Lemma relabel_spec shuffled : ∀ i new_options correct,
  i + length shuffled ≤ 10 →
  relabel i shuffled new_options correct =
    Returns
      (new_options
         ++ zip_with with_letter (drop i letter_list) shuffled,
       correct
         ++ correct_letters (zip_with with_letter (drop i letter_list) shuffled)).
Proof.
  induction shuffled as [|opt rest IH]; intros i acc cor Hlen; simpl in *.
  - destruct (drop i letter_list); simpl; by rewrite !app_nil_r.
  - rewrite str_index_letters.
    destruct (letter_list !! i) as [l|] eqn:Hl.
    2:{ apply lookup_ge_None in Hl. simpl in Hl. lia. }
    rewrite IH by lia. rewrite (drop_S _ _ _ Hl). simpl.
    rewrite <-!app_assoc. simpl. f_equal. f_equal.
    unfold correct_letters at 2. rewrite filter_cons. simpl.
    destruct (opt_is_correct opt); simpl.
    + by rewrite <-app_assoc.
    + done.
Qed.

Lemma zip_with_with_letter_content ls (opts : list OptionD) :
  length opts ≤ length ls →
  option_content <$> zip_with with_letter ls opts = option_content <$> opts.
Proof.
  revert ls. induction opts as [|o opts IH]; intros [|l ls] Hlen; simpl in *;
    try done; try lia.
  f_equal. apply IH. lia.
Qed.

Lemma zip_with_with_letter_letters ls (opts : list OptionD) :
  opt_letter <$> zip_with with_letter ls opts = take (length opts) ls.
Proof.
  revert ls. induction opts as [|o opts IH]; intros [|l ls]; simpl; try done.
  by rewrite IH.
Qed.

Lemma correct_letters_length_content (a b : list OptionD) :
  option_content <$> a ≡ₚ option_content <$> b →
  length (correct_letters a) = length (correct_letters b).
Proof.
  intros Hp. unfold correct_letters. rewrite !length_fmap.
  assert (∀ l : list OptionD,
    length (filter (λ opt, opt_is_correct opt = true) l)
    = length (filter (λ p : string * bool, p.2 = true) (option_content <$> l)))
    as Hc.
  { induction l as [|o l IH]; [done|]. rewrite fmap_cons, !filter_cons. simpl.
    destruct (decide (opt_is_correct o = true)); simpl; by rewrite IH. }
  rewrite !Hc. by rewrite Hp.
Qed.

Lemma letter_list_NoDup : NoDup letter_list.
Proof. apply (bool_decide_unpack _). vm_compute. exact I. Qed.

Lemma correct_letters_NoDup (opts : list OptionD) :
  NoDup (opt_letter <$> opts) → NoDup (correct_letters opts).
Proof.
  unfold correct_letters. intros Hnd.
  eapply sublist_NoDup; [exact Hnd|]. apply fmap_sublist, sublist_filter.
Qed.

(** C9.  For an option list of at most 10 entries, shuffle_options returns
    without raising; the texts and correctness flags of the new options are
    a permutation of those of the input; the new letters are A, B, C, ...
    in order; the returned correct letters are those of the correct new
    options, are pairwise distinct, and are as many as the correct options
    of the input (the length of the old correct-letter list); and the list
    object passed in is left as it was. *)
Theorem shuffle_options_permutes (options : nat) (h : gmap nat (list OptionD))
    (g : list nat) (opts : list OptionD) :
  h !! options = Some opts →
  length opts ≤ 10 →
  ∃ new_options correct h' g',
    shuffle_options options h g = (Returns (new_options, correct), h', g')
    ∧ option_content <$> new_options ≡ₚ option_content <$> opts
    ∧ opt_letter <$> new_options = take (length opts) letter_list
    ∧ correct = correct_letters new_options
    ∧ NoDup correct
    ∧ size (list_to_set (C:=gset string) correct)
        = length (filter (λ opt, opt_is_correct opt = true) opts)
    ∧ length correct = length (correct_letters opts)
    ∧ h' !! options = Some opts.
Proof.
  intros Hopts Hlen. unfold shuffle_options.
  rewrite (lookup_total_correct _ _ _ Hopts).
  rewrite lookup_total_insert_eq.
  destruct (random_shuffle opts g) as [x g'] eqn:Hsh.
  pose proof (random_shuffle_Permutation opts g) as Hperm.
  rewrite Hsh in Hperm. simpl in Hperm.
  rewrite lookup_total_insert_eq.
  assert (length x = length opts) as Hx by by rewrite Hperm.
  rewrite relabel_spec by (simpl; lia). simpl.
  set (new_options := zip_with with_letter letter_list x).
  assert (opt_letter <$> new_options = take (length opts) letter_list) as Hlet.
  { unfold new_options. by rewrite zip_with_with_letter_letters, Hx. }
  assert (option_content <$> new_options ≡ₚ option_content <$> opts) as Hcont.
  { unfold new_options. rewrite zip_with_with_letter_content by (simpl; lia).
    by rewrite Hperm. }
  assert (NoDup (correct_letters new_options)) as Hnd.
  { apply correct_letters_NoDup. rewrite Hlet.
    eapply sublist_NoDup; [apply letter_list_NoDup|apply sublist_take]. }
  assert (length (correct_letters new_options) = length (correct_letters opts))
    as Hcl by by apply correct_letters_length_content.
  eexists _, _, _, _. split; [reflexivity|].
  split_and!; try done.
  - rewrite size_list_to_set by done. etrans; [exact Hcl|].
    unfold correct_letters. by rewrite length_fmap.
  - rewrite insert_insert_eq. rewrite lookup_insert_ne; [done|].
    intros Heq. apply (is_fresh (dom h)). rewrite Heq.
    apply elem_of_dom. eauto.
Qed.

(** ** The answer handler *)

Lemma py_index_lookup {A} (l : list A) i a :
  l !! i = Some a → py_index l i = Returns a.
Proof. unfold py_index. by intros ->. Qed.

Lemma py_index_lt {A} (l : list A) i :
  i < length l → ∃ a, l !! i = Some a ∧ py_index l i = Returns a.
Proof.
  intros Hlt. destruct (lookup_lt_is_Some_2 l i Hlt) as [a Ha].
  exists a. split; [done|]. by apply py_index_lookup.
Qed.

Lemma same_letters_set (c s : list string) :
  list_to_set (C:=gset string) c = list_to_set s ↔ same_letters c s.
Proof.
  unfold same_letters. split.
  - intros Heq l. rewrite <-!(elem_of_list_to_set (C:=gset string)).
    by rewrite Heq.
  - intros Hsame. apply set_eq. intros l.
    rewrite !elem_of_list_to_set. apply Hsame.
Qed.

(** What a submission does when a question is open. *)
Lemma answer_open db s sel now question :
  questions_of s !! current_index_of s = Some question →
  let is_correct :=
    bool_decide (list_to_set (C:=gset string) (q_correct question)
                 = list_to_set (default [] sel)) in
  let record :=
    {| ar_question_id := q_id question;
       ar_selected := default [] sel;
       ar_correct := elements (list_to_set (C:=gset string) (q_correct question));
       ar_is_correct := is_correct |} in
  let db' := save_progress db (q_id question) is_correct now in
  answer db s sel now =
    (db',
     {| sess_questions := sess_questions s;
        sess_current_index := sess_current_index s;
        sess_score :=
          if is_correct then Some (score_of s + 1) else sess_score s;
        sess_answers := Some (answers_of s ++ [record]);
        sess_domain := sess_domain s |},
     Returns (JObj [("is_correct", JBool is_correct);
                    ("correct_answers",
                     JArr (JStr <$> elements
                             (list_to_set (C:=gset string) (q_correct question))));
                    ("explanation", JStr (q_explanation question));
                    ("mastery",
                     jsonify_mastery (get_mastery_info db' (q_id question)))])).
Proof.
  intros Hq. simpl. unfold answer.
  fold (questions_of s). fold (current_index_of s).
  pose proof (lookup_lt_Some _ _ _ Hq) as Hlt.
  rewrite decide_False by lia.
  rewrite (py_index_lookup _ _ _ Hq).
  destruct (bool_decide _); reflexivity.
Qed.

Lemma answer_closed db s sel now :
  length (questions_of s) ≤ current_index_of s →
  answer db s sel now = (db, s, Returns quiz_completed).
Proof.
  intros Hle. unfold answer.
  fold (questions_of s). fold (current_index_of s).
  by rewrite decide_True.
Qed.

(** C2.  While a question is open, POST /answer judges the submission
    correct exactly when the selected letters and the question's correct
    letters are equal as sets; the verdict is what the response reports,
    what the appended answer record holds, and what decides whether the
    score grows by one. *)
Theorem answer_exact_set_equality db s sel now question :
  questions_of s !! current_index_of s = Some question →
  ∃ (is_correct : bool) db' s' body,
    answer db s sel now = (db', s', Returns body)
    ∧ json_get "is_correct" body = Some (JBool is_correct)
    ∧ ar_is_correct <$> last (answers_of s') = Some is_correct
    ∧ score_of s' = score_of s + (if is_correct then 1 else 0)
    ∧ (is_correct = true ↔ same_letters (q_correct question) (default [] sel)).
Proof.
  intros Hq. rewrite (answer_open _ _ _ _ _ Hq). simpl.
  eexists _, _, _, _. split; [reflexivity|]. split; [reflexivity|].
  split; [|split].
  - unfold answers_of. simpl. by rewrite last_snoc.
  - unfold score_of at 1. simpl. destruct (bool_decide _); simpl; [done|].
    unfold score_of. lia.
  - rewrite bool_decide_eq_true. apply same_letters_set.
Qed.

(** C8.  POST /answer replies 'Quiz completed' exactly when current_index
    is at least the number of questions; in that case the database and the
    session are returned unchanged; a session with no entries is such a
    case. *)
Theorem answer_completed_iff db s sel now :
  ((answer db s sel now).2 = Returns quiz_completed
   ↔ length (questions_of s) ≤ current_index_of s)
  ∧ ((answer db s sel now).2 = Returns quiz_completed
     → (answer db s sel now).1 = (db, s))
  ∧ answer db empty_session sel now
    = (db, empty_session, Returns quiz_completed).
Proof.
  assert (length (questions_of s) ≤ current_index_of s
          ∨ current_index_of s < length (questions_of s)) as [Hle|Hlt] by lia.
  - rewrite (answer_closed _ _ _ _ Hle). simpl. split_and!; done.
  - destruct (lookup_lt_is_Some_2 _ _ Hlt) as [q Hq].
    rewrite (answer_open _ _ _ _ _ Hq). simpl. split_and!.
    + split; [discriminate|lia].
    + discriminate.
    + by apply answer_closed.
Qed.

(** ** Invariants of request sequences *)

Lemma quiz_session db s domain limit rnd :
  (quiz db s domain limit rnd).1 = s
  ∨ ∃ qs d, qs ≠ [] ∧ (quiz db s domain limit rnd).1 = start_session qs d.
Proof.
  unfold quiz. destruct (get_questions _ _ _ _) as [|q qs] eqn:Hqs; [by left|].
  right. exists (q :: qs), (default "all" domain). split; [done|]. reflexivity.
Qed.

Lemma quiz_missed_session db s rnd :
  (quiz_missed db s rnd).1 = s
  ∨ ∃ qs d, qs ≠ [] ∧ (quiz_missed db s rnd).1 = start_session qs d.
Proof.
  unfold quiz_missed. destruct (get_missed_questions _ _) as [|q qs]; [by left|].
  right. exists (q :: qs), "Missed Questions". split; [done|]. reflexivity.
Qed.

Lemma answer_session db s sel now :
  (length (questions_of s) ≤ current_index_of s
   ∧ answer db s sel now = (db, s, Returns quiz_completed))
  ∨ ∃ (b : bool) r db' resp,
      ar_is_correct r = b
      ∧ answer db s sel now =
          (db',
           {| sess_questions := sess_questions s;
              sess_current_index := sess_current_index s;
              sess_score := if b then Some (score_of s + 1) else sess_score s;
              sess_answers := Some (answers_of s ++ [r]);
              sess_domain := sess_domain s |},
           resp).
Proof.
  assert (length (questions_of s) ≤ current_index_of s
          ∨ current_index_of s < length (questions_of s)) as [Hle|Hlt] by lia.
  - left. split; [done|]. by apply answer_closed.
  - right. destruct (lookup_lt_is_Some_2 _ _ Hlt) as [q Hq].
    rewrite (answer_open _ _ _ _ _ Hq). simpl.
    eexists _, _, _, _. split; [|reflexivity]. reflexivity.
Qed.

Lemma next_question_session s :
  (next_question s).1 = set_current_index s (current_index_of s + 1).
Proof.
  unfold next_question. case_decide; [done|]. by destruct (py_index _ _).
Qed.

Lemma handle_score_consistent w r :
  score_consistent (w_session w) → score_consistent (w_session (handle w r)).
Proof.
  intros Hinv. destruct r as [domain limit rnd|rnd|sel now| | |]; simpl;
    try done.
  - destruct (quiz_session (w_db w) (w_session w) domain limit rnd)
      as [->|(qs & d & _ & ->)]; done.
  - destruct (quiz_missed_session (w_db w) (w_session w) rnd)
      as [->|(qs & d & _ & ->)]; done.
  - destruct (answer_session (w_db w) (w_session w) sel now)
      as [[_ ->]|(b & r & db' & resp & Hb & ->)]; [done|].
    simpl. unfold score_consistent, score_of, answers_of in *. simpl.
    rewrite filter_app, length_app, filter_cons, filter_nil. rewrite Hb.
    destruct b; simpl; unfold score_of in *; lia.
  - by rewrite next_question_session.
Qed.

(** C3.  After any sequence of requests issued from a session with no
    entries, the score equals the number of logged answers whose is_correct
    flag is set. *)
Theorem score_counts_correct_answers db rs :
  score_consistent (w_session (run (fresh_world db) rs)).
Proof.
  unfold run.
  assert (score_consistent (w_session (fresh_world db))) as Hinit by done.
  revert Hinit. generalize (fresh_world db) as w.
  induction rs as [|r rs IH]; intros w Hw; [done|].
  simpl. apply IH. by apply handle_score_consistent.
Qed.

Lemma handle_index_in_bounds w r :
  (is_next r = true →
   current_index_of (w_session w) < length (questions_of (w_session w))) →
  index_in_bounds (w_session w) → index_in_bounds (w_session (handle w r)).
Proof.
  intros Hnext Hinv.
  destruct r as [domain limit rnd|rnd|sel now| | |]; simpl; try done.
  - destruct (quiz_session (w_db w) (w_session w) domain limit rnd)
      as [->|(qs & d & _ & ->)]; [done|].
    unfold index_in_bounds, current_index_of, questions_of. simpl. lia.
  - destruct (quiz_missed_session (w_db w) (w_session w) rnd)
      as [->|(qs & d & _ & ->)]; [done|].
    unfold index_in_bounds, current_index_of, questions_of. simpl. lia.
  - destruct (answer_session (w_db w) (w_session w) sel now)
      as [[_ ->]|(b & r & db' & resp & Hb & ->)]; [done|].
    unfold index_in_bounds, current_index_of, questions_of in *. done.
  - rewrite next_question_session. specialize (Hnext eq_refl).
    unfold index_in_bounds, current_index_of, questions_of in *. simpl. lia.
Qed.

(** C1, as amended.  After any sequence of requests in which GET /next is
    only requested while current_index is below the number of questions,
    current_index is at most the number of questions. *)
Theorem current_index_bounded_when_paced db rs :
  paced (fresh_world db) rs = true →
  index_in_bounds (w_session (run (fresh_world db) rs)).
Proof.
  unfold run.
  assert (index_in_bounds (w_session (fresh_world db))) as Hinit
    by (unfold index_in_bounds, current_index_of, questions_of; simpl; lia).
  revert Hinit. generalize (fresh_world db) as w.
  induction rs as [|r rs IH]; intros w Hw Hp; [done|].
  simpl in *. apply andb_prop in Hp as [Hr Hp].
  apply IH; [|done]. apply handle_index_in_bounds; [|done].
  intros Hn. rewrite Hn in Hr. by apply bool_decide_eq_true in Hr.
Qed.

(** ** The view returned by GET /next *)

Lemma next_question_open s q :
  questions_of s !! (current_index_of s + 1) = Some q →
  next_question s =
    (set_current_index s (current_index_of s + 1),
     Returns (JObj [("completed", JBool false);
                    ("question", jsonify_question q);
                    ("current", JNum (Z.of_nat (current_index_of s + 1 + 1)));
                    ("total", JNum (Z.of_nat (length (questions_of s))))])).
Proof.
  intros Hq. unfold next_question.
  fold (questions_of s). fold (current_index_of s).
  pose proof (lookup_lt_Some _ _ _ Hq).
  rewrite decide_False by lia. by rewrite (py_index_lookup _ _ _ Hq).
Qed.

Lemma next_question_done s :
  length (questions_of s) ≤ current_index_of s + 1 →
  next_question s =
    (set_current_index s (current_index_of s + 1),
     Returns (JObj [("completed", JBool true)])).
Proof.
  intros Hle. unfold next_question.
  fold (questions_of s). fold (current_index_of s).
  by rewrite decide_True.
Qed.

(** C4, as amended.  When GET /next returns a question rather than the
    completed signal, the view is the stored question dictionary at the new
    index, unchanged: it carries the correct letters under 'correct' and
    the is_correct flag of every option. *)
Theorem next_question_returns_stored_question s body :
  (next_question s).2 = Returns body →
  json_get "completed" body = Some (JBool false) →
  ∃ q,
    questions_of s !! (current_index_of s + 1) = Some q
    ∧ json_get "question" body = Some (jsonify_question q)
    ∧ json_get "correct" (jsonify_question q)
      = Some (JArr (JStr <$> q_correct q))
    ∧ json_get "options" (jsonify_question q)
      = Some (JArr (jsonify_option <$> q_options q))
    ∧ ∀ opt, opt ∈ q_options q →
        json_get "is_correct" (jsonify_option opt)
        = Some (JBool (opt_is_correct opt)).
Proof.
  intros Hresp Hcompleted.
  assert (length (questions_of s) ≤ current_index_of s + 1
          ∨ current_index_of s + 1 < length (questions_of s)) as [Hle|Hlt]
    by lia.
  - rewrite (next_question_done _ Hle) in Hresp. simpl in Hresp.
    injection Hresp as <-. discriminate.
  - destruct (lookup_lt_is_Some_2 _ _ Hlt) as [q Hq].
    rewrite (next_question_open _ _ Hq) in Hresp. simpl in Hresp.
    injection Hresp as <-. exists q. split_and!; try done.
Qed.

(** ** The mastery store *)

Lemma save_progress_mastery db question_id is_correct now :
  tbl_question_mastery (save_progress db question_id is_correct now) =
    <[question_id :=
        match tbl_question_mastery db !! question_id with
        | None => {| correct_count := if is_correct then 1 else 0;
                     incorrect_count := if is_correct then 0 else 1;
                     last_answered := now |}
        | Some m =>
            {| correct_count := correct_count m + (if is_correct then 1 else 0);
               incorrect_count :=
                 incorrect_count m + (if is_correct then 0 else 1);
               last_answered := now |}
        end]> (tbl_question_mastery db).
Proof.
  unfold save_progress. simpl.
  by destruct (tbl_question_mastery db !! question_id).
Qed.

(** C6.  save_progress upserts the mastery row of the question: with no
    row it creates one with counters 1/0 on a correct outcome and 0/1 on an
    incorrect one; with a row it adds one to the matching counter and leaves
    the other; rows of other questions are untouched; so no counter
    decreases, and counters that were non-negative stay so. *)
Theorem save_progress_upserts db question_id is_correct now :
  let db' := save_progress db question_id is_correct now in
  (tbl_question_mastery db !! question_id = None →
   tbl_question_mastery db' !! question_id
   = Some {| correct_count := if is_correct then 1 else 0;
             incorrect_count := if is_correct then 0 else 1;
             last_answered := now |})
  ∧ (∀ m, tbl_question_mastery db !! question_id = Some m →
       tbl_question_mastery db' !! question_id
       = Some {| correct_count :=
                   correct_count m + (if is_correct then 1 else 0);
                 incorrect_count :=
                   incorrect_count m + (if is_correct then 0 else 1);
                 last_answered := now |})
  ∧ (∀ q, q ≠ question_id →
       tbl_question_mastery db' !! q = tbl_question_mastery db !! q)
  ∧ (∀ q, (mi_correct (get_mastery_info db q)
           ≤ mi_correct (get_mastery_info db' q))%Z
          ∧ (mi_incorrect (get_mastery_info db q)
             ≤ mi_incorrect (get_mastery_info db' q))%Z)
  ∧ (counters_nonneg db → counters_nonneg db').
Proof.
  intros db'. subst db'. split_and!.
  - intros Hnone. rewrite save_progress_mastery, Hnone.
    apply lookup_insert_eq.
  - intros m Hm. rewrite save_progress_mastery, Hm. apply lookup_insert_eq.
  - intros q Hq. rewrite save_progress_mastery. by apply lookup_insert_ne.
  - intros q. unfold get_mastery_info. rewrite save_progress_mastery.
    destruct (decide (q = question_id)) as [->|Hne].
    + rewrite lookup_insert_eq.
      destruct (tbl_question_mastery db !! question_id) as [m|];
        destruct is_correct; simpl; lia.
    + rewrite lookup_insert_ne by done.
      destruct (tbl_question_mastery db !! q); simpl; lia.
  - intros Hnn q m. rewrite save_progress_mastery.
    destruct (decide (q = question_id)) as [->|Hne].
    + rewrite lookup_insert_eq. intros [= <-].
      destruct (tbl_question_mastery db !! question_id) as [m|] eqn:Hm.
      * destruct (Hnn _ _ Hm). destruct is_correct; simpl; lia.
      * destruct is_correct; simpl; lia.
    + rewrite lookup_insert_ne by done. apply Hnn.
Qed.

(** ** The question limit *)

Lemma length_order_by_random {A} rnd (rows : list A) :
  length (order_by_random rnd rows) = length rows.
Proof.
  unfold order_by_random.
  by rewrite length_fmap, merge_sort_Permutation, length_imap.
Qed.

Lemma get_questions_unlimited db domain rnd :
  get_questions db domain None rnd
  = (λ row, build_question db row None)
    <$> order_by_random rnd (matching_rows db domain).
Proof.
  unfold get_questions, matching_rows.
  by destruct (domain_selected domain).
Qed.

Lemma get_questions_limited db domain limit rnd :
  get_questions db domain limit rnd
  = (λ row, build_question db row None)
    <$> apply_limit limit (order_by_random rnd (matching_rows db domain)).
Proof.
  unfold get_questions, matching_rows.
  by destruct (domain_selected domain).
Qed.

(** C10.  In get_questions a limit of 0 behaves as no limit: every
    matching question is returned; a positive limit n returns at most n
    questions; and GET /quiz with limit 0 is GET /quiz without a limit. *)
Theorem zero_limit_is_no_limit db domain rnd :
  get_questions db domain (Some 0%Z) rnd = get_questions db domain None rnd
  ∧ length (get_questions db domain None rnd)
    = length (matching_rows db domain)
  ∧ (∀ n, (0 < n)%Z →
       length (get_questions db domain (Some n) rnd) ≤ Z.to_nat n)
  ∧ (∀ s domain_arg,
       quiz db s domain_arg (Some 0%Z) rnd = quiz db s domain_arg None rnd).
Proof.
  split_and!.
  - by rewrite !get_questions_limited.
  - by rewrite get_questions_unlimited, length_fmap, length_order_by_random.
  - intros n Hn. rewrite get_questions_limited, length_fmap. simpl.
    rewrite decide_True by lia. unfold slice_to.
    rewrite decide_True by lia. rewrite length_take. lia.
  - intros s domain_arg. unfold quiz.
    by rewrite !get_questions_limited.
Qed.

(** ** The missed-question pool *)

#[local] Instance missed_le_total : Total missed_le.
Proof. intros a b. unfold missed_le. lia. Qed.

#[local] Instance missed_le_trans : Transitive missed_le.
Proof. intros a b c. unfold missed_le. lia. Qed.

Lemma join_mastery_Some db q p :
  join_mastery db q = Some p ↔
  p.1 = q ∧ tbl_question_mastery db !! row_id q = Some p.2
  ∧ (correct_count p.2 < 4)%Z.
Proof.
  unfold join_mastery. destruct p as [q' m']. simpl.
  destruct (tbl_question_mastery db !! row_id q) as [m|].
  - case_decide as Hlt.
    + split; [by intros [= <- <-]|by intros (-> & [= ->] & _)].
    + split; [done|]. by intros (_ & [= ->] & ?).
  - split; [done|]. by intros (_ & ? & _).
Qed.

Lemma join_mastery_questions db (qs : list QuestionRow) :
  (omap (join_mastery db) qs).*1 = filter (has_open_mastery db) qs.
Proof.
  induction qs as [|q qs IH]; [done|].
  rewrite filter_cons, <-IH. cbn [omap list_omap].
  destruct (join_mastery db q) as [p|] eqn:Hj.
  - apply join_mastery_Some in Hj as (Hq & Hm & Hlt).
    rewrite decide_True by (exists p.2; done).
    rewrite fmap_cons. by rewrite Hq.
  - rewrite decide_False; [done|]. intros (m & Hm & Hlt).
    unfold join_mastery in Hj. rewrite Hm in Hj.
    by rewrite decide_True in Hj.
Qed.

Lemma missed_rows_questions db rnd :
  mr_question <$> missed_rows db rnd
  ≡ₚ filter (has_open_mastery db) (tbl_questions db).
Proof.
  unfold missed_rows. rewrite merge_sort_Permutation.
  rewrite fmap_imap. rewrite <-join_mastery_questions.
  rewrite <-(imap_const fst). 
  erewrite imap_ext; [reflexivity|]. by intros i [q m] _.
Qed.

Lemma missed_rows_mastery db rnd row :
  row ∈ missed_rows db rnd →
  ∃ m, tbl_question_mastery db !! row_id (mr_question row) = Some m
       ∧ mr_correct_count row = correct_count m
       ∧ mr_incorrect_count row = incorrect_count m
       ∧ (correct_count m < 4)%Z.
Proof.
  unfold missed_rows. rewrite merge_sort_Permutation.
  intros Hin. apply list_elem_of_lookup in Hin as [i Hi].
  rewrite list_lookup_imap in Hi.
  destruct (omap (join_mastery db) (tbl_questions db) !! i) as [[q m]|] eqn:Hp;
    simplify_eq/=.
  apply list_elem_of_lookup_2, list_elem_of_omap in Hp as (q' & _ & Hj).
  apply join_mastery_Some in Hj as (<- & Hm & Hlt). simpl in *. eauto.
Qed.

Lemma missed_rows_sorted db rnd : StronglySorted missed_le (missed_rows db rnd).
Proof. unfold missed_rows. apply (StronglySorted_merge_sort _). Qed.

Lemma get_missed_questions_sorted db rnd :
  StronglySorted mastery_order (get_missed_questions db rnd).
Proof.
  unfold get_missed_questions.
  eapply StronglySorted_fmap; [|apply missed_rows_sorted].
  intros a b. unfold missed_le, mastery_order. simpl. lia.
Qed.

Lemma missed_rows_nil db rnd :
  missed_rows db rnd = [] ↔
  ∀ q, q ∈ tbl_questions db → ¬ has_open_mastery db q.
Proof.
  pose proof (missed_rows_questions db rnd) as Hp. split.
  - intros Hnil q Hq Hopen.
    assert (q ∈ filter (has_open_mastery db) (tbl_questions db)) as Hin
      by by apply list_elem_of_filter.
    rewrite <-Hp, Hnil in Hin. by apply elem_of_nil in Hin.
  - intros Hnone. destruct (missed_rows db rnd) as [|row rows]; [done|].
    exfalso. assert (mr_question row ∈ filter (has_open_mastery db)
                                         (tbl_questions db)) as Hin.
    { rewrite <-Hp. rewrite fmap_cons. apply list_elem_of_here. }
    apply list_elem_of_filter in Hin as [Hopen Hin]. by apply (Hnone _ Hin).
Qed.

(** C7, as amended.  The missed-question list holds exactly the questions
    that have a mastery row with correct_count below 4, each with its
    counters, ordered by incorrect_count descending, then correct_count
    ascending, then by the random draw; GET /quiz/missed shows the
    congratulatory message exactly when no question has such a row, and
    otherwise starts a session on that list. *)
Theorem missed_pool_needs_mastery_row db s rnd :
  get_missed_questions db rnd
    ≡ₚ (λ row, build_question db row
                 (Some (get_mastery_info db (row_id row))))
       <$> filter (has_open_mastery db) (tbl_questions db)
  ∧ StronglySorted missed_le (missed_rows db rnd)
  ∧ StronglySorted mastery_order (get_missed_questions db rnd)
  ∧ (quiz_missed db s rnd = (s, Returns (ErrorPage no_missed_message))
     ↔ ∀ q, q ∈ tbl_questions db → ¬ has_open_mastery db q)
  ∧ ((∃ q, q ∈ tbl_questions db ∧ has_open_mastery db q) →
     (quiz_missed db s rnd).1
     = start_session (get_missed_questions db rnd) "Missed Questions").
Proof.
  split_and!.
  - rewrite <-missed_rows_questions, <-list_fmap_compose.
    unfold get_missed_questions.
    erewrite list_fmap_ext; [reflexivity|].
    intros i row Hrow. simpl. f_equal. f_equal.
    apply list_elem_of_lookup_2, missed_rows_mastery in Hrow
      as (m & Hm & Hc & Hi & _).
    unfold get_mastery_info. rewrite Hm. by rewrite Hc, Hi.
  - apply missed_rows_sorted.
  - apply get_missed_questions_sorted.
  - rewrite <-(missed_rows_nil db rnd). unfold quiz_missed, get_missed_questions.
    destruct (missed_rows db rnd) as [|row rows]; simpl; [done|].
    split; [|done]. intros [= _ ?].
  - intros (q & Hq & Hopen). unfold quiz_missed.
    destruct (get_missed_questions db rnd) as [|q' qs] eqn:Hg; [|done].
    exfalso. unfold get_missed_questions in Hg. apply fmap_nil_inv in Hg.
    pose proof (proj1 (missed_rows_nil db rnd) Hg) as Hnone.
    by apply (Hnone q).
Qed.

(** ** The results page *)

Lemma tally_lookup (m : gmap string DomainScore) d b d' :
  tally m d b !! d' =
    if decide (d = d') then
      Some {| ds_correct :=
                ds_correct (default {| ds_correct := 0; ds_total := 0 |} (m !! d))
                + (if b then 1 else 0);
              ds_total :=
                ds_total (default {| ds_correct := 0; ds_total := 0 |} (m !! d))
                + 1 |}
    else m !! d'.
Proof.
  unfold tally. case_decide as Hd.
  - subst d'. destruct (m !! d) as [e|] eqn:He; destruct b; simpl;
      rewrite ?lookup_alter_eq, ?lookup_insert_eq, ?He; simpl;
      f_equal; f_equal; lia.
  - destruct (m !! d) as [e|] eqn:He; destruct b; simpl;
      rewrite ?lookup_alter_ne, ?lookup_insert_ne by done; done.
Qed.

Lemma domain_breakdown_zip questions answers : ∀ i acc,
  length answers ≤ length (drop i questions) →
  domain_breakdown questions i answers acc =
    Returns (foldl (λ acc p, tally acc (q_domain p.1) (ar_is_correct p.2))
                   acc (zip (drop i questions) answers)).
Proof.
  induction answers as [|a answers IH]; intros i acc Hlen; simpl.
  - by destruct (drop i questions).
  - destruct (questions !! i) as [q|] eqn:Hq.
    2:{ apply lookup_ge_None in Hq. rewrite length_drop in Hlen.
        simpl in Hlen. lia. }
    unfold py_index. rewrite Hq, (drop_S _ _ _ Hq). simpl.
    apply IH. rewrite (drop_S _ _ _ Hq) in Hlen. simpl in Hlen. lia.
Qed.

Lemma correct_le_attempted (ps : list (Question * AnswerRecord)) d :
  length (filter (λ p, q_domain p.1 = d ∧ ar_is_correct p.2 = true) ps)
  ≤ length (filter (λ p, q_domain p.1 = d) ps).
Proof.
  induction ps as [|p ps IH]; [done|]. rewrite !filter_cons.
  destruct (decide (q_domain p.1 = d)) as [Hd|Hd].
  - case_decide; simpl; lia.
  - rewrite decide_False by (by intros [? _]). done.
Qed.

#[local] Ltac count_cases :=
  repeat case_decide; simpl in *; try lia; f_equal; f_equal; lia.

Lemma breakdown_fold_lookup (ps : list (Question * AnswerRecord)) d : ∀ acc,
  foldl (λ acc p, tally acc (q_domain p.1) (ar_is_correct p.2)) acc ps !! d =
    let attempted := length (filter (λ p, q_domain p.1 = d) ps) in
    if decide (attempted = 0) then acc !! d
    else
      Some {| ds_correct :=
                ds_correct (default {| ds_correct := 0; ds_total := 0 |}
                                    (acc !! d))
                + length (filter (λ p, q_domain p.1 = d
                                       ∧ ar_is_correct p.2 = true) ps);
              ds_total :=
                ds_total (default {| ds_correct := 0; ds_total := 0 |}
                                  (acc !! d))
                + attempted |}.
Proof.
  induction ps as [|[q a] ps IH]; intros acc; [done|].
  cbn [foldl]. rewrite IH. cbn zeta. rewrite !filter_cons. cbn [fst snd].
  rewrite tally_lookup.
  pose proof (correct_le_attempted ps d) as Hle.
  destruct (decide (q_domain q = d)) as [Hd|Hd].
  - destruct (ar_is_correct a).
    + rewrite (decide_True (P := _ ∧ _)) by done. cbn [length]. subst d.
      count_cases.
    + rewrite (decide_False (P := _ ∧ _)) by (by intros [_ ?]).
      cbn [length]. subst d. count_cases.
  - rewrite (decide_False (P := _ ∧ _)) by (by intros [? _]). done.
Qed.

Lemma breakdown_entry_lookup s d :
  foldl (λ acc p, tally acc (q_domain p.1) (ar_is_correct p.2)) ∅ (answered s)
    !! d = breakdown_entry s d.
Proof.
  rewrite breakdown_fold_lookup. unfold breakdown_entry. cbn zeta.
  case_decide; [done|]. by rewrite lookup_empty.
Qed.

(** C5, as amended.  When the answer log is no longer than the question
    list, GET /results returns total = len(questions), the stored score,
    percentage = score / total * 100 (0 when total is 0), passed exactly
    when percentage is at least 70, and a breakdown that has an entry
    exactly for the domains of the answered positions, counting for each
    the correct answers and the answers at those positions. *)
Theorem results_summary s :
  length (answers_of s) ≤ length (questions_of s) →
  ∃ view,
    results s = Returns (ResultsPage view)
    ∧ r_total view = length (questions_of s)
    ∧ r_score view = score_of s
    ∧ r_percentage view =
        (if decide (r_total view = 0) then 0%float
         else PrimFloat.mul
                (PrimFloat.div (float_of_nat (r_score view))
                               (float_of_nat (r_total view)))
                100%float)
    ∧ r_passed view = PrimFloat.leb 70%float (r_percentage view)
    ∧ ∀ d, r_domain_scores view !! d = breakdown_entry s d.
Proof.
  intros Hlen. unfold results.
  fold (questions_of s). fold (answers_of s). fold (score_of s).
  rewrite domain_breakdown_zip by (by rewrite drop_0).
  rewrite drop_0. fold (answered s).
  eexists. split; [reflexivity|]. simpl. split_and!; try done.
  - unfold percentage_of. destruct (length (questions_of s)); [done|].
    rewrite decide_True by lia. by rewrite decide_False.
  - apply breakdown_entry_lookup.
Qed.

(** ** Worked cases on the sample database *)

(** C1 fails as stated: a fifth GET /next on a three-question quiz stores
    current_index 4. *)
Lemma repeated_next_exceeds_length :
  ¬ index_in_bounds (w_session (run (fresh_world sample_db) repeated_next)).
Proof. unfold index_in_bounds. vm_compute. lia. Qed.

(** The amended C1 on a quiz answered and advanced in turn. *)
Lemma paced_quiz_stays_in_bounds :
  index_in_bounds (w_session (run (fresh_world sample_db) sample_requests)).
Proof.
  apply (current_index_bounded_when_paced sample_db sample_requests).
  vm_compute. reflexivity.
Defined.

(** C2 on the selection {A, B} against the correct letters {A, B, C}. *)
Lemma partial_selection_judged :
  ∃ (is_correct : bool) db' s' body,
    answer sample_db sample_session (Some ["A"; "B"]) 100
      = (db', s', Returns body)
    ∧ json_get "is_correct" body = Some (JBool is_correct)
    ∧ ar_is_correct <$> last (answers_of s') = Some is_correct
    ∧ score_of s' = score_of sample_session + (if is_correct then 1 else 0)
    ∧ (is_correct = true
       ↔ same_letters (q_correct sample_question) (default [] (Some ["A"; "B"]))).
Proof.
  apply (answer_exact_set_equality sample_db sample_session (Some ["A"; "B"])
           100 sample_question).
  vm_compute. reflexivity.
Defined.

(** That selection is judged incorrect. *)
Lemma partial_selection_is_incorrect :
  q_correct sample_question = ["A"; "B"; "C"]
  ∧ json_get "is_correct"
      (response_body (answer sample_db sample_session (Some ["A"; "B"]) 100).2)
    = Some (JBool false).
Proof. split; vm_compute; reflexivity. Qed.

(** C4 fails as stated: the question returned by GET /next carries the key
    'correct'. *)
Lemma next_question_exposes_correctness :
  json_get "completed" (response_body (next_question sample_session).2)
    = Some (JBool false)
  ∧ ∃ view,
      json_get "question" (response_body (next_question sample_session).2)
        = Some view
      ∧ ¬ hides_correctness view.
Proof.
  split; [vm_compute; reflexivity|].
  eexists. split; [vm_compute; reflexivity|].
  intros [Hcorrect _]. vm_compute in Hcorrect. discriminate.
Qed.

(** The amended C4 on the sample session. *)
Lemma next_question_view_sample :
  ∃ q,
    questions_of sample_session !! (current_index_of sample_session + 1)
      = Some q
    ∧ json_get "question" (response_body (next_question sample_session).2)
      = Some (jsonify_question q)
    ∧ json_get "correct" (jsonify_question q)
      = Some (JArr (JStr <$> q_correct q))
    ∧ json_get "options" (jsonify_question q)
      = Some (JArr (jsonify_option <$> q_options q))
    ∧ ∀ opt, opt ∈ q_options q →
        json_get "is_correct" (jsonify_option opt)
        = Some (JBool (opt_is_correct opt)).
Proof.
  apply (next_question_returns_stored_question sample_session
           (response_body (next_question sample_session).2)).
  - vm_compute. reflexivity.
  - vm_compute. reflexivity.
Defined.

(** C5 fails as stated: with only the first question answered, the domain
    of the second question has no entry in the breakdown. *)
Lemma results_omits_unanswered_domain :
  q_domain <$> questions_of sample_session_answered
    = ["Technology"; "Security"; "Technology"]
  ∧ match results sample_session_answered with
    | Returns (ResultsPage view) => r_domain_scores view !! "Security" = None
    | _ => False
    end.
Proof. split; vm_compute; reflexivity. Qed.

(** The amended C5 on that session. *)
Lemma results_summary_sample :
  ∃ view,
    results sample_session_answered = Returns (ResultsPage view)
    ∧ r_total view = length (questions_of sample_session_answered)
    ∧ r_score view = score_of sample_session_answered
    ∧ r_percentage view =
        (if decide (r_total view = 0) then 0%float
         else PrimFloat.mul
                (PrimFloat.div (float_of_nat (r_score view))
                               (float_of_nat (r_total view)))
                100%float)
    ∧ r_passed view = PrimFloat.leb 70%float (r_percentage view)
    ∧ ∀ d, r_domain_scores view !! d = breakdown_entry sample_session_answered d.
Proof.
  apply (results_summary sample_session_answered). vm_compute. lia.
Defined.

(** The percentage at the pass mark and next to it, and with no question. *)
Lemma percentage_at_pass_mark :
  percentage_of 7 10 = 70%float
  ∧ PrimFloat.leb 70%float (percentage_of 7 10) = true
  ∧ PrimFloat.leb 70%float (percentage_of 69 100) = false
  ∧ percentage_of 0 0 = 0%float
  ∧ PrimFloat.leb 70%float (percentage_of 0 0) = false.
Proof. repeat split; vm_compute; reflexivity. Qed.

(** Three questions, all answered correctly: 3 of 3, 100 percent, passed. *)
Lemma results_all_correct :
  match results (w_session (run (fresh_world sample_db) sample_requests)) with
  | Returns (ResultsPage view) =>
      r_score view = 3 ∧ r_total view = 3
      ∧ r_percentage view = 100%float ∧ r_passed view = true
      ∧ r_domain_scores view !! "Technology"
        = Some {| ds_correct := 2; ds_total := 2 |}
      ∧ r_domain_scores view !! "Security"
        = Some {| ds_correct := 1; ds_total := 1 |}
  | _ => False
  end.
Proof. vm_compute. repeat split. Qed.

(** Submitting the only question twice leaves two answers for one question,
    and the breakdown loop then indexes past the question list. *)
Lemma results_after_double_submission :
  results (w_session (run (fresh_world sample_db) double_submission))
  = Raises IndexError.
Proof. vm_compute. reflexivity. Qed.

(** C7 fails as stated: with no mastery row, every question reads as 0
    correct answers, yet the missed pool is empty. *)
Lemma unattempted_questions_not_in_missed_pool :
  (∀ q, q ∈ tbl_questions sample_db →
     (mi_correct (get_mastery_info sample_db (row_id q)) < 4)%Z)
  ∧ length (tbl_questions sample_db) = 3
  ∧ quiz_missed sample_db empty_session sample_draws
    = (empty_session, Returns (ErrorPage no_missed_message)).
Proof.
  split_and!.
  - intros q _. unfold get_mastery_info, sample_db. simpl.
    rewrite lookup_empty. simpl. lia.
  - reflexivity.
  - vm_compute. reflexivity.
Qed.

(** C9 on the four options of the first sample question. *)
Lemma shuffle_options_sample :
  ∃ new_options correct h' g',
    shuffle_options 0 {[0 := sample_options]} [2; 0; 1]
      = (Returns (new_options, correct), h', g')
    ∧ option_content <$> new_options ≡ₚ option_content <$> sample_options
    ∧ opt_letter <$> new_options = take (length sample_options) letter_list
    ∧ correct = correct_letters new_options
    ∧ NoDup correct
    ∧ size (list_to_set (C:=gset string) correct)
        = length (filter (λ opt, opt_is_correct opt = true) sample_options)
    ∧ length correct = length (correct_letters sample_options)
    ∧ h' !! 0 = Some sample_options.
Proof.
  apply (shuffle_options_permutes 0 {[0 := sample_options]} [2; 0; 1]
           sample_options).
  - reflexivity.
  - vm_compute. lia.
Defined.

(** The draws 2, 0, 1 swap positions 3 and 2, then 2 and 0, then keep 1. *)
Lemma shuffle_value_on_sample :
  (shuffle_options 0 {[0 := sample_options]} [2; 0; 1]).1.1
  = Returns ([ {| opt_letter := "A"; opt_text := "S3"; opt_is_correct := false |};
               {| opt_letter := "B"; opt_text := "Lambda";
                  opt_is_correct := true |};
               {| opt_letter := "C"; opt_text := "EC2"; opt_is_correct := true |};
               {| opt_letter := "D"; opt_text := "ECS"; opt_is_correct := true |} ],
             ["B"; "C"; "D"]).
Proof. vm_compute. reflexivity. Qed.

(** An eleventh option has no letter. *)
Lemma shuffle_options_eleven :
  (shuffle_options 0
     {[0 := replicate 11 {| opt_letter := "A"; opt_text := "EC2";
                            opt_is_correct := true |}]} []).1.1
  = Raises IndexError.
Proof. vm_compute. reflexivity. Qed.

(** * Further properties *)

(** ** shuffle_options beyond ten options *)

Lemma relabel_overflow shuffled : ∀ i new_options correct,
  i ≤ 10 → 10 < i + length shuffled →
  relabel i shuffled new_options correct = Raises IndexError.
Proof.
  induction shuffled as [|opt rest IH]; intros i acc cor Hi Hlen;
    simpl in *; [lia|].
  rewrite str_index_letters.
  destruct (letter_list !! i) as [l|] eqn:Hl; [|done].
  apply lookup_lt_Some in Hl. simpl in Hl. apply IH; lia.
Qed.

(** X1.  shuffle_options raises IndexError exactly when it is given more
    than ten options; whether it returns or raises, the list object passed
    in is left as it was. *)
Theorem shuffle_options_raises_iff (options : nat)
    (h : gmap nat (list OptionD)) (g : list nat) (opts : list OptionD) :
  h !! options = Some opts →
  ((shuffle_options options h g).1.1 = Raises IndexError ↔ 10 < length opts)
  ∧ (shuffle_options options h g).1.2 !! options = Some opts.
Proof.
  intros Hopts. unfold shuffle_options.
  rewrite (lookup_total_correct _ _ _ Hopts), lookup_total_insert_eq.
  destruct (random_shuffle opts g) as [x g'] eqn:Hsh.
  pose proof (random_shuffle_Permutation opts g) as Hperm.
  rewrite Hsh in Hperm. simpl in Hperm.
  rewrite lookup_total_insert_eq.
  assert (length x = length opts) as Hx by by rewrite Hperm.
  cbn [fst snd]. split.
  - destruct (decide (10 < length opts)) as [Hgt|Hle].
    + rewrite relabel_overflow by lia. done.
    + rewrite relabel_spec by (simpl; lia). split; [done|lia].
  - rewrite insert_insert_eq, lookup_insert_ne; [done|].
    intros Heq. apply (is_fresh (dom h)). rewrite Heq.
    apply elem_of_dom. eauto.
Qed.

(** ** Which questions get_questions returns *)

Lemma order_by_random_Permutation {A} rnd (rows : list A) :
  order_by_random rnd rows ≡ₚ rows.
Proof.
  unfold order_by_random. rewrite merge_sort_Permutation, fmap_imap.
  erewrite imap_ext; [|by intros i r _].
  by rewrite (imap_const id), list_fmap_id.
Qed.

Lemma apply_limit_take {A} (limit : option Z) (rows : list A) :
  ∃ k, apply_limit limit rows = take k rows.
Proof.
  destruct limit as [n|]; simpl.
  - case_decide; [|by exists (length rows); rewrite firstn_all].
    unfold slice_to. case_decide; eauto.
  - exists (length rows). by rewrite firstn_all.
Qed.

(** X2.  Without a limit get_questions returns each matching question row
    exactly once, in some order; with any limit it returns a prefix of that
    same order. *)
Theorem get_questions_selection db domain limit rnd :
  get_questions db domain None rnd
    ≡ₚ (λ row, build_question db row None) <$> matching_rows db domain
  ∧ get_questions db domain limit rnd
      `prefix_of` get_questions db domain None rnd.
Proof.
  split.
  - by rewrite get_questions_unlimited, order_by_random_Permutation.
  - rewrite get_questions_limited, get_questions_unlimited.
    destruct (apply_limit_take limit
                (order_by_random rnd (matching_rows db domain))) as [k ->].
    rewrite fmap_take. apply prefix_take.
Qed.

(** X3.  When a domain other than the empty string and 'all' is given,
    every question returned has that domain and comes from a row of the
    questions table, whatever the limit. *)
Theorem get_questions_domain db d limit rnd q :
  d ≠ "" → d ≠ "all" →
  q ∈ get_questions db (Some d) limit rnd →
  q_domain q = d ∧ ∃ row, row ∈ tbl_questions db ∧ q_id q = row_id row.
Proof.
  intros Hne Hall Hq. rewrite get_questions_limited in Hq.
  apply list_elem_of_fmap in Hq as (row & -> & Hrow).
  destruct (apply_limit_take limit
              (order_by_random rnd (matching_rows db (Some d)))) as [k Hk].
  rewrite Hk in Hrow. apply (λ H, elem_of_sublist _ _ _ H (sublist_take _ _)) in Hrow.
  rewrite order_by_random_Permutation in Hrow.
  unfold matching_rows, domain_selected in Hrow.
  rewrite decide_True in Hrow by done.
  apply list_elem_of_filter in Hrow as [Hd Hin]. simpl. eauto.
Qed.

(** X4.  A negative limit -k drops the last k questions of the random
    order; when at most k questions match, GET /quiz shows 'No questions
    available' and keeps the session. *)
Theorem negative_limit_drops_from_end db s domain_arg n rnd :
  (n < 0)%Z →
  let domain := Some (default "all" domain_arg) in
  length (get_questions db domain (Some n) rnd)
  = length (matching_rows db domain) - Z.to_nat (- n)
  ∧ (length (matching_rows db domain) ≤ Z.to_nat (- n) →
     quiz db s domain_arg (Some n) rnd
     = (s, Returns (ErrorPage no_questions_message))).
Proof.
  intros Hn domain.
  assert (length (get_questions db domain (Some n) rnd)
          = length (matching_rows db domain) - Z.to_nat (- n)) as Hlen.
  { rewrite get_questions_limited, length_fmap. simpl.
    rewrite decide_True by lia. unfold slice_to.
    rewrite decide_False by lia.
    rewrite length_take, length_order_by_random. lia. }
  split; [done|]. intros Hfew. unfold quiz. fold domain.
  destruct (get_questions db domain (Some n) rnd) as [|q qs]; [done|].
  simpl in Hlen. lia.
Qed.

(** X5.  With no limit or a non-negative one, GET /quiz shows the error
    page and keeps the session unchanged when no row matches the domain;
    otherwise it replaces the session by a fresh one on the fetched
    questions and shows their first question as 1 of their number. *)
Theorem quiz_starts_or_keeps_session db s domain_arg limit rnd :
  (∀ n, limit = Some n → (0 ≤ n)%Z) →
  let domain := default "all" domain_arg in
  let questions := get_questions db (Some domain) limit rnd in
  (matching_rows db (Some domain) = []
   ∧ quiz db s domain_arg limit rnd
     = (s, Returns (ErrorPage no_questions_message)))
  ∨ (matching_rows db (Some domain) ≠ []
     ∧ ∃ q, questions !! 0 = Some q
            ∧ quiz db s domain_arg limit rnd
              = (start_session questions domain,
                 Returns (QuizPage q 1 (length questions) domain))).
Proof.
  intros Hlimit domain questions.
  assert (length questions = 0 ↔ matching_rows db (Some domain) = []) as Hnil.
  { unfold questions. rewrite get_questions_limited, length_fmap.
    rewrite <-length_zero_iff_nil,
      <-(length_order_by_random rnd (matching_rows db (Some domain))).
    destruct limit as [n|]; simpl; [|done].
    case_decide; [|done]. unfold slice_to.
    specialize (Hlimit n eq_refl). rewrite decide_True by done.
    rewrite length_take. lia. }
  unfold quiz. fold domain. fold questions.
  destruct questions as [|q qs] eqn:Hqs.
  - left. split; [by apply Hnil|done].
  - right. split.
    + intros Hm. apply Hnil in Hm. done.
    + exists q. split; done.
Qed.

(** ** The options of a question *)

#[local] Instance letter_le_total : Total letter_le.
Proof. intros a b. apply String.leb_total. Qed.

(** X6.  The options of a built question are the option rows of that
    question, ordered by letter; its correct letters are a sublist of its
    option letters, namely the letters of the rows flagged correct. *)
Theorem build_question_options db row mastery :
  q_options (build_question db row mastery)
    ≡ₚ option_of_row
       <$> filter (λ opt, orow_question_id opt = row_id row) (tbl_options db)
  ∧ Sorted option_order (q_options (build_question db row mastery))
  ∧ q_correct (build_question db row mastery)
      `sublist_of` (opt_letter <$> q_options (build_question db row mastery))
  ∧ ∀ l, l ∈ q_correct (build_question db row mastery)
         ↔ ∃ opt, opt ∈ tbl_options db
                  ∧ orow_question_id opt = row_id row
                  ∧ orow_option_letter opt = l
                  ∧ orow_is_correct opt = true.
Proof.
  unfold build_question. simpl. unfold fetch_options.
  fold option_of_row. split_and!.
  - by rewrite merge_sort_Permutation.
  - eapply Sorted_fmap; [|apply (Sorted_merge_sort _)]. by intros a b.
  - unfold correct_letters. apply fmap_sublist, sublist_filter.
  - intros l. unfold correct_letters.
    rewrite list_elem_of_fmap. split.
    + intros (o & -> & Ho). apply list_elem_of_filter in Ho as [Hc Ho].
      apply list_elem_of_fmap in Ho as (opt & -> & Hopt).
      rewrite merge_sort_Permutation in Hopt.
      apply list_elem_of_filter in Hopt as [Hid Hin]. eauto.
    + intros (opt & Hin & Hid & <- & Hc). exists (option_of_row opt).
      split; [done|]. apply list_elem_of_filter. split; [done|].
      apply list_elem_of_fmap. exists opt. split; [done|].
      rewrite merge_sort_Permutation. by apply list_elem_of_filter.
Qed.

(** ** Mastery counters across requests *)

Lemma get_mastery_info_save db q is_correct now q' :
  get_mastery_info (save_progress db q is_correct now) q'
  = if decide (q' = q)
    then add_outcome (get_mastery_info db q) is_correct
    else get_mastery_info db q'.
Proof.
  unfold get_mastery_info. rewrite save_progress_mastery.
  case_decide as Hq.
  - subst q'. rewrite lookup_insert_eq. unfold add_outcome.
    destruct (tbl_question_mastery db !! q) as [m|];
      destruct is_correct; reflexivity.
  - by rewrite lookup_insert_ne.
Qed.

Lemma answer_db db s sel now :
  (answer db s sel now).1.1 = db
  ∨ ∃ q is_correct, (answer db s sel now).1.1 = save_progress db q is_correct now.
Proof.
  assert (length (questions_of s) ≤ current_index_of s
          ∨ current_index_of s < length (questions_of s)) as [Hle|Hlt] by lia.
  - left. by rewrite (answer_closed _ _ _ _ Hle).
  - right. destruct (lookup_lt_is_Some_2 _ _ Hlt) as [q Hq].
    rewrite (answer_open _ _ _ _ _ Hq). simpl. eauto.
Qed.

Lemma handle_db w r :
  w_db (handle w r) = w_db w
  ∨ w_db (handle w r) = clear_progress (w_db w)
  ∨ ∃ q is_correct now,
      w_db (handle w r) = save_progress (w_db w) q is_correct now.
Proof.
  destruct r as [domain limit rnd|rnd|sel now| | |]; simpl; auto.
  destruct (answer_db (w_db w) (w_session w) sel now) as [Hdb|(q & b & Hdb)];
    destruct (answer (w_db w) (w_session w) sel now) as [[db' s'] resp];
    simpl in *; subst db'; eauto 6.
Qed.

(** An invariant of the database that the two writers keep holds after
    every sequence of requests. *)
Lemma run_db_invariant (P : DB → Prop) :
  (∀ db, P db → P (clear_progress db)) →
  (∀ db q is_correct now, P db → P (save_progress db q is_correct now)) →
  ∀ rs w, P (w_db w) → P (w_db (run w rs)).
Proof.
  intros Hclear Hsave. unfold run.
  induction rs as [|r rs IH]; intros w Hw; [done|].
  simpl. apply IH.
  destruct (handle_db w r) as [->|[->|(q & b & now & ->)]]; auto.
Qed.

(** X7.  An accepted submission answers with the counters read before it
    plus one in the counter of the verdict, which is also what the store
    then holds for the question; other questions keep their counters; one
    history row is appended; and the reply lists the question's correct
    letters without repetition, with its explanation. *)
Theorem answer_reports_updated_mastery db s sel now question :
  questions_of s !! current_index_of s = Some question →
  ∃ (is_correct : bool) db' s' body letters,
    answer db s sel now = (db', s', Returns body)
    ∧ json_get "is_correct" body = Some (JBool is_correct)
    ∧ json_get "mastery" body
      = Some (jsonify_mastery
                (add_outcome (get_mastery_info db (q_id question)) is_correct))
    ∧ get_mastery_info db' (q_id question)
      = add_outcome (get_mastery_info db (q_id question)) is_correct
    ∧ (∀ q, q ≠ q_id question →
         get_mastery_info db' q = get_mastery_info db q)
    ∧ tbl_user_progress db'
      = tbl_user_progress db ++ [(q_id question, is_correct)]
    ∧ json_get "explanation" body = Some (JStr (q_explanation question))
    ∧ json_get "correct_answers" body = Some (JArr (JStr <$> letters))
    ∧ NoDup letters
    ∧ ∀ l, l ∈ letters ↔ l ∈ q_correct question.
Proof.
  intros Hq. rewrite (answer_open _ _ _ _ _ Hq). simpl.
  eexists _, _, _, _, _. split; [reflexivity|]. split; [reflexivity|].
  split_and!; try reflexivity.
  - by rewrite get_mastery_info_save, decide_True.
  - by rewrite get_mastery_info_save, decide_True.
  - intros q Hne. by rewrite get_mastery_info_save, decide_False.
  - apply NoDup_elements.
  - intros l. rewrite elem_of_elements. apply elem_of_list_to_set.
Qed.

Lemma history_consistent_save db q is_correct now :
  history_consistent db →
  history_consistent (save_progress db q is_correct now).
Proof.
  intros Hc q'. rewrite get_mastery_info_save.
  destruct (Hc q') as [Hcor Hinc]. destruct (Hc q) as [Hcor' Hinc'].
  cbn [save_progress tbl_user_progress].
  rewrite !filter_app, !length_app, !filter_cons, !filter_nil.
  case_decide as Hq.
  - subst q'. unfold add_outcome. simpl.
    destruct is_correct; repeat case_decide; simplify_eq; simpl; lia.
  - repeat case_decide; simplify_eq; simpl; lia.
Qed.

Lemma history_consistent_clear db : history_consistent (clear_progress db).
Proof.
  intros q. unfold get_mastery_info, clear_progress. simpl.
  by rewrite lookup_empty.
Qed.

(** X8.  If the mastery counters of every question equal its numbers of
    correct and incorrect history rows, they still do after any sequence of
    requests. *)
Theorem history_matches_counters w rs :
  history_consistent (w_db w) → history_consistent (w_db (run w rs)).
Proof.
  apply (run_db_invariant history_consistent).
  - intros db _. apply history_consistent_clear.
  - intros db q b now. apply history_consistent_save.
Qed.

(** X9.  No sequence of requests changes the questions or options tables,
    so get_questions returns the same list before and after. *)
Theorem tables_never_written w rs :
  tbl_questions (w_db (run w rs)) = tbl_questions (w_db w)
  ∧ tbl_options (w_db (run w rs)) = tbl_options (w_db w)
  ∧ ∀ domain limit rnd,
      get_questions (w_db (run w rs)) domain limit rnd
      = get_questions (w_db w) domain limit rnd.
Proof.
  assert (tbl_questions (w_db (run w rs)) = tbl_questions (w_db w)
          ∧ tbl_options (w_db (run w rs)) = tbl_options (w_db w)) as [Hq Ho].
  { apply (run_db_invariant
             (λ db, tbl_questions db = tbl_questions (w_db w)
                    ∧ tbl_options db = tbl_options (w_db w))); done. }
  split_and!; [done..|]. intros domain limit rnd.
  unfold get_questions, build_question, fetch_options. by rewrite Hq, Ho.
Qed.

(** ** Statistics *)

Lemma filter_disjoint_length {A} (P Q : A → Prop)
    `{!∀ x, Decision (P x)} `{!∀ x, Decision (Q x)} (l : list A) :
  (∀ x, P x → Q x → False) →
  length (filter P l) + length (filter Q l) ≤ length l.
Proof.
  intros Hdis. induction l as [|x l IH]; [done|].
  rewrite !filter_cons.
  destruct (decide (P x)) as [HP|HP]; destruct (decide (Q x)) as [HQ|HQ];
    simpl; try lia.
  destruct (Hdis x HP HQ).
Qed.

Lemma filter_cover_length {A} (P Q : A → Prop)
    `{!∀ x, Decision (P x)} `{!∀ x, Decision (Q x)} (l : list A) :
  (∀ x, P x → Q x → False) →
  (∀ x, x ∈ l → P x ∨ Q x) →
  length (filter P l) + length (filter Q l) = length l.
Proof.
  intros Hdis. induction l as [|x l IH]; intros Hcov; [done|].
  rewrite !filter_cons.
  assert (length (filter P l) + length (filter Q l) = length l) as Hl.
  { apply IH. intros y Hy. apply Hcov. by apply list_elem_of_further. }
  destruct (decide (P x)) as [HP|HP]; destruct (decide (Q x)) as [HQ|HQ];
    simpl; try lia.
  - destruct (Hdis x HP HQ).
  - destruct (Hcov x (list_elem_of_here _ _)); done.
Qed.

Lemma filter_impl_length {A} (P Q : A → Prop)
    `{!∀ x, Decision (P x)} `{!∀ x, Decision (Q x)} (l : list A) :
  (∀ x, P x → Q x) → length (filter P l) ≤ length (filter Q l).
Proof.
  intros Himpl. induction l as [|x l IH]; [done|].
  rewrite !filter_cons.
  destruct (decide (P x)) as [HP|HP]; destruct (decide (Q x)) as [HQ|HQ];
    simpl; try lia.
  destruct (HQ (Himpl x HP)).
Qed.

(** X10.  In the statistics, needs_practice and mastered_count together
    never exceed the number of mastery rows, wrong_count never exceeds
    needs_practice, and wrong_count and mastered_count together never
    exceed the number of mastery rows. *)
Theorem stats_classification db :
  st_needs_practice (get_stats db) + st_mastered_count (get_stats db)
    ≤ size (tbl_question_mastery db)
  ∧ st_wrong_count (get_stats db) ≤ st_needs_practice (get_stats db)
  ∧ st_wrong_count (get_stats db) + st_mastered_count (get_stats db)
    ≤ size (tbl_question_mastery db).
Proof.
  unfold get_stats, count_mastery. simpl.
  rewrite <-length_map_to_list. split_and!.
  - apply filter_disjoint_length. intros [q m]. simpl. lia.
  - apply filter_impl_length. intros [q m]. simpl. lia.
  - apply filter_disjoint_length. intros [q m]. simpl. lia.
Qed.

Lemma stats_classification_attempted db :
  rows_attempted db →
  st_needs_practice (get_stats db) + st_mastered_count (get_stats db)
  = size (tbl_question_mastery db).
Proof.
  intros Hrows. unfold get_stats, count_mastery. simpl.
  rewrite <-length_map_to_list. apply filter_cover_length.
  - intros [q m]. simpl. lia.
  - intros [q m] Hin. apply elem_of_map_to_list in Hin.
    destruct (Hrows q m Hin) as (Hc & Hi & Hsum). simpl. lia.
Qed.

Lemma rows_attempted_save db q is_correct now :
  rows_attempted db → rows_attempted (save_progress db q is_correct now).
Proof.
  intros Hrows q' m. rewrite save_progress_mastery.
  destruct (decide (q' = q)) as [->|Hne].
  - rewrite lookup_insert_eq. intros [= <-].
    destruct (tbl_question_mastery db !! q) as [m|] eqn:Hm.
    + destruct (Hrows _ _ Hm) as (? & ? & ?).
      destruct is_correct; simpl; lia.
    + destruct is_correct; simpl; lia.
  - rewrite lookup_insert_ne by done. apply Hrows.
Qed.

(** X11.  Starting from a database whose mastery rows each record at
    least one answer, after any sequence of requests every mastery row is
    counted either as needing practice or as mastered. *)
Theorem every_row_classified w rs :
  rows_attempted (w_db w) →
  st_needs_practice (get_stats (w_db (run w rs)))
  + st_mastered_count (get_stats (w_db (run w rs)))
  = size (tbl_question_mastery (w_db (run w rs))).
Proof.
  intros Hrows. apply stats_classification_attempted.
  revert Hrows. apply (run_db_invariant rows_attempted).
  - intros db _ q m. unfold clear_progress. simpl. by rewrite lookup_empty.
  - intros db q b now. apply rows_attempted_save.
Qed.

(** ** Domain counts *)

Lemma sum_list_Permutation (l k : list nat) :
  l ≡ₚ k → sum_list l = sum_list k.
Proof. induction 1; simpl; lia. Qed.

Lemma sum_indicator (ks : list string) (a : string) :
  NoDup ks → a ∈ ks →
  sum_list ((λ k, if decide (a = k) then 1 else 0) <$> ks) = 1.
Proof.
  induction 1 as [|k ks Hk Hnd IH]; intros Ha.
  - by apply elem_of_nil in Ha.
  - rewrite fmap_cons. simpl. apply elem_of_cons in Ha as [->|Ha].
    + rewrite decide_True by done.
      assert (sum_list ((λ k0, if decide (k = k0) then 1 else 0) <$> ks) = 0)
        as ->; [|done].
      clear IH Hnd. induction ks as [|k' ks IH]; [done|].
      rewrite fmap_cons. simpl. rewrite not_elem_of_cons in Hk.
      destruct Hk as [Hne Hk]. rewrite decide_False by done.
      by rewrite IH.
    + rewrite decide_False by (intros ->; done). by rewrite IH.
Qed.

Lemma sum_counts_by_key (rows : list QuestionRow) (ks : list string) :
  NoDup ks → (∀ r, r ∈ rows → row_domain r ∈ ks) →
  sum_list ((λ d, length (filter (λ r, row_domain r = d) rows)) <$> ks)
  = length rows.
Proof.
  intros Hnd. induction rows as [|r rows IH]; intros Hin.
  - clear. induction ks as [|k ks IHk]; [done|]. exact IHk.
  - assert (sum_list ((λ d, length (filter (λ r0, row_domain r0 = d)
                                          (r :: rows))) <$> ks)
            = sum_list ((λ k, if decide (row_domain r = k) then 1 else 0)
                        <$> ks)
              + sum_list ((λ d, length (filter (λ r0, row_domain r0 = d) rows))
                          <$> ks)) as ->.
    { clear. induction ks as [|k ks IHk]; [done|].
      rewrite !fmap_cons. simpl. rewrite IHk, filter_cons.
      case_decide; simpl; lia. }
    rewrite sum_indicator; [|done|apply Hin, list_elem_of_here].
    rewrite IH; [done|]. intros r' Hr'. apply Hin. by apply list_elem_of_further.
Qed.

#[local] Instance count_ge_total : Total count_ge.
Proof. intros a b. unfold count_ge. lia. Qed.

#[local] Instance count_ge_trans : Transitive count_ge.
Proof. intros a b c. unfold count_ge. lia. Qed.

(** X12.  The statistics list each domain once with its number of
    questions (at least one), by decreasing count, and the counts add up to
    the total number of questions. *)
Theorem stats_domains db :
  st_total (get_stats db) = length (tbl_questions db)
  ∧ sum_list (dc_count <$> st_domains (get_stats db)) = st_total (get_stats db)
  ∧ NoDup (dc_name <$> st_domains (get_stats db))
  ∧ StronglySorted count_ge (st_domains (get_stats db))
  ∧ ∀ d n, {| dc_name := d; dc_count := n |} ∈ st_domains (get_stats db)
           ↔ n = length (filter (λ r, row_domain r = d) (tbl_questions db))
             ∧ 0 < n.
Proof.
  unfold get_stats. simpl. split_and!.
  - done.
  - rewrite (sum_list_Permutation _
               (dc_count <$> group_by_domain (tbl_questions db)))
      by by rewrite merge_sort_Permutation.
    unfold group_by_domain. rewrite <-list_fmap_compose.
    apply sum_counts_by_key; [apply NoDup_remove_dups|].
    intros r Hr. apply elem_of_remove_dups, list_elem_of_fmap. eauto.
  - rewrite merge_sort_Permutation. unfold group_by_domain.
    rewrite <-list_fmap_compose. simpl.
    rewrite (list_fmap_ext _ id _ (λ _ _ _, eq_refl)), list_fmap_id.
    apply NoDup_remove_dups.
  - apply (StronglySorted_merge_sort _).
  - intros d n. rewrite merge_sort_Permutation. unfold group_by_domain.
    rewrite list_elem_of_fmap. split.
    + intros (d' & Heq & Hd). injection Heq as Hname Hcount. subst d' n.
      split; [done|].
      apply elem_of_remove_dups, list_elem_of_fmap in Hd as (r & Hd & Hr).
      assert (r ∈ filter (λ r0, row_domain r0 = d) (tbl_questions db)) as Hf
        by by apply list_elem_of_filter.
      destruct (filter _ _); [by apply elem_of_nil in Hf|simpl; lia].
    + intros [-> Hpos]. exists d. split; [done|].
      apply elem_of_remove_dups, list_elem_of_fmap.
      destruct (filter (λ r, row_domain r = d) (tbl_questions db))
        as [|r rs] eqn:Hf; [simpl in Hpos; lia|].
      assert (r ∈ filter (λ r, row_domain r = d) (tbl_questions db)) as Hr
        by (rewrite Hf; apply list_elem_of_here).
      apply list_elem_of_filter in Hr as [Hd Hr]. eauto.
Qed.

(** ** Resetting progress *)

(** X13.  After clear_progress every question reads as 0 correct and 0
    incorrect, the history is empty, the missed pool is empty so that GET
    /quiz/missed shows its message, the three mastery statistics are 0, and
    the question total and domain counts are as before. *)
Theorem clear_progress_resets db s rnd :
  (∀ q, get_mastery_info (clear_progress db) q
        = {| mi_correct := 0; mi_incorrect := 0 |})
  ∧ tbl_user_progress (clear_progress db) = []
  ∧ get_missed_questions (clear_progress db) rnd = []
  ∧ quiz_missed (clear_progress db) s rnd
    = (s, Returns (ErrorPage no_missed_message))
  ∧ st_needs_practice (get_stats (clear_progress db)) = 0
  ∧ st_mastered_count (get_stats (clear_progress db)) = 0
  ∧ st_wrong_count (get_stats (clear_progress db)) = 0
  ∧ st_total (get_stats (clear_progress db)) = st_total (get_stats db)
  ∧ st_domains (get_stats (clear_progress db)) = st_domains (get_stats db).
Proof.
  assert (get_missed_questions (clear_progress db) rnd = []) as Hmissed.
  { unfold get_missed_questions.
    assert (missed_rows (clear_progress db) rnd = []) as ->; [|done].
    apply missed_rows_nil. intros q _ Hopen. destruct Hopen as (m & Hm & _).
    simpl in Hm. by rewrite lookup_empty in Hm. }
  split_and!.
  - intros q. unfold get_mastery_info. simpl. by rewrite lookup_empty.
  - done.
  - done.
  - unfold quiz_missed. by rewrite Hmissed.
  - unfold get_stats, count_mastery. simpl. by rewrite map_to_list_empty.
  - unfold get_stats, count_mastery. simpl. by rewrite map_to_list_empty.
  - unfold get_stats, count_mastery. simpl. by rewrite map_to_list_empty.
  - done.
  - done.
Qed.

(** ** The missed pool after an answer *)

Lemma missed_ids db rnd q :
  q ∈ q_id <$> get_missed_questions db rnd
  ↔ ∃ row, row ∈ tbl_questions db ∧ row_id row = q ∧ has_open_mastery db row.
Proof.
  unfold get_missed_questions. rewrite <-list_fmap_compose.
  assert (q_id ∘ (λ row, build_question db (mr_question row)
                           (Some {| mi_correct := mr_correct_count row;
                                    mi_incorrect := mr_incorrect_count row |}))
          = row_id ∘ mr_question) as -> by done.
  rewrite list_fmap_compose, missed_rows_questions, list_elem_of_fmap.
  split.
  - intros (row & -> & Hrow). apply list_elem_of_filter in Hrow as [? ?].
    eauto.
  - intros (row & Hin & <- & Hopen). exists row. split; [done|].
    by apply list_elem_of_filter.
Qed.

Lemma has_open_mastery_info db row :
  has_open_mastery db row
  ↔ is_Some (tbl_question_mastery db !! row_id row)
    ∧ (mi_correct (get_mastery_info db (row_id row)) < 4)%Z.
Proof.
  unfold has_open_mastery, get_mastery_info.
  destruct (tbl_question_mastery db !! row_id row) as [m|]; simpl.
  - split.
    + intros (m' & [= <-] & Hlt). eauto.
    + intros [_ Hlt]. eauto.
  - split.
    + by intros (m' & ? & _).
    + by intros [[? ?] _].
Qed.

(** X14.  After an outcome is saved for a question, that question is in
    the missed pool exactly when it is in the questions table and its
    correct count, including this outcome, is below 4; pool membership of
    every other question is unchanged. *)
Theorem missed_pool_after_outcome db qid is_correct now rnd :
  (qid ∈ q_id <$> get_missed_questions (save_progress db qid is_correct now) rnd
   ↔ qid ∈ row_id <$> tbl_questions db
     ∧ (mi_correct (get_mastery_info db qid)
        + (if is_correct then 1 else 0) < 4)%Z)
  ∧ ∀ q, q ≠ qid →
      (q ∈ q_id <$> get_missed_questions (save_progress db qid is_correct now)
                      rnd
       ↔ q ∈ q_id <$> get_missed_questions db rnd).
Proof.
  split.
  - rewrite missed_ids, list_elem_of_fmap. split.
    + intros (row & Hin & Hid & Hopen).
      apply has_open_mastery_info in Hopen as [_ Hlt].
      rewrite Hid, get_mastery_info_save, decide_True in Hlt by done.
      split; [by exists row|]. done.
    + intros [(row & Hid & Hin) Hlt]. exists row. split_and!; [done..|].
      apply has_open_mastery_info. rewrite <-Hid.
      rewrite get_mastery_info_save, decide_True by done. split; [|done].
      rewrite save_progress_mastery, lookup_insert_eq. eauto.
  - intros q Hne. rewrite !missed_ids.
    assert (∀ row, row_id row = q →
              (has_open_mastery (save_progress db qid is_correct now) row
               ↔ has_open_mastery db row)) as Hsame.
    { intros row Hid. unfold has_open_mastery.
      rewrite save_progress_mastery, lookup_insert_ne by congruence. done. }
    split; intros (row & Hin & Hid & Hopen); exists row;
      (split_and!; [done..|]); by apply (Hsame row Hid).
Qed.

(** ** Review and results on sessions of any shape *)

(** X15.  The review lists as many entries as the shorter of the question
    list and the answer log; entry i, numbered i + 1, pairs question i with
    answer i. *)
Theorem review_pairs_by_position s :
  length (review s) = length (questions_of s) `min` length (answers_of s)
  ∧ ∀ i e,
      review s !! i = Some e
      ↔ ∃ q a, questions_of s !! i = Some q ∧ answers_of s !! i = Some a
               ∧ e = {| rv_number := i + 1; rv_question := q;
                        rv_answer := a |}.
Proof.
  unfold review. fold (questions_of s). fold (answers_of s). split.
  - by rewrite length_imap, length_zip.
  - intros i e. rewrite list_lookup_imap. split.
    + destruct (zip (questions_of s) (answers_of s) !! i) as [[q a]|] eqn:Hz;
        [|done].
      intros [= <-]. apply lookup_zip_Some in Hz as [Hq Ha]. eauto.
    + intros (q & a & Hq & Ha & ->).
      by rewrite (proj2 (lookup_zip_Some _ _ _ _ _) (conj Hq Ha)).
Qed.

Lemma domain_breakdown_overrun questions answers : ∀ i acc,
  length (drop i questions) < length answers →
  domain_breakdown questions i answers acc = Raises IndexError.
Proof.
  induction answers as [|a answers IH]; intros i acc Hlen; simpl in *; [lia|].
  unfold py_index. destruct (questions !! i) as [q|] eqn:Hq; [|done].
  apply IH. rewrite (drop_S _ _ _ Hq) in Hlen. simpl in Hlen. lia.
Qed.

Lemma results_returns s :
  length (answers_of s) ≤ length (questions_of s) →
  ∃ view, results s = Returns (ResultsPage view).
Proof.
  intros Hlen. unfold results.
  fold (questions_of s). fold (answers_of s). fold (score_of s).
  rewrite domain_breakdown_zip by (by rewrite drop_0). eauto.
Qed.

(** X16.  GET /results raises IndexError exactly when the answer log is
    longer than the question list; when it returns, every breakdown entry
    counts at least one attempt, no more correct answers than attempts, and
    no more attempts than there are answers. *)
Theorem results_raises_iff s :
  (results s = Raises IndexError
   ↔ length (questions_of s) < length (answers_of s))
  ∧ ∀ view d e,
      results s = Returns (ResultsPage view) →
      r_domain_scores view !! d = Some e →
      1 ≤ ds_total e ∧ ds_correct e ≤ ds_total e
      ∧ ds_total e ≤ length (answers_of s).
Proof.
  unfold results.
  fold (questions_of s). fold (answers_of s). fold (score_of s).
  destruct (decide (length (questions_of s) < length (answers_of s)))
    as [Hlt|Hge].
  - rewrite domain_breakdown_overrun by (by rewrite drop_0). split; [done|].
    intros view d e [=].
  - rewrite domain_breakdown_zip by (rewrite drop_0; lia).
    rewrite drop_0. fold (answered s). split; [split; [done|lia]|].
    intros view d e [= <-]. simpl. rewrite breakdown_entry_lookup.
    unfold breakdown_entry. cbn zeta. case_decide as Hzero; [done|].
    intros [= <-]. simpl.
    pose proof (correct_le_attempted (answered s) d).
    pose proof (length_filter (λ p : Question * AnswerRecord, q_domain p.1 = d)
                              (answered s)) as Hf.
    unfold answered in Hf at 2. rewrite length_zip in Hf. lia.
Qed.

(** ** Requests after the quiz has completed *)

Lemma handle_after_completion w r :
  starts_quiz r = false →
  length (questions_of (w_session w)) ≤ current_index_of (w_session w) →
  questions_of (w_session (handle w r)) = questions_of (w_session w)
  ∧ answers_of (w_session (handle w r)) = answers_of (w_session w)
  ∧ score_of (w_session (handle w r)) = score_of (w_session w)
  ∧ current_index_of (w_session w) ≤ current_index_of (w_session (handle w r))
  ∧ tbl_user_progress (w_db (handle w r))
    `suffix_of` tbl_user_progress (w_db w).
Proof.
  intros Hr Hdone.
  destruct r as [domain limit rnd|rnd|sel now| | |]; simpl in *; try done.
  - rewrite (answer_closed _ _ _ _ Hdone). done.
  - rewrite next_question_session.
    unfold current_index_of, questions_of, answers_of, score_of. simpl.
    split_and!; try done; lia.
  - split_and!; try done; apply suffix_nil.
Qed.

(** X17.  Once current_index has reached the number of questions, any
    requests other than a quiz start leave the questions, the answer log
    and the score as they are, keep the quiz completed, and add no history
    row. *)
Theorem completed_is_absorbing w rs :
  forallb (λ r, negb (starts_quiz r)) rs = true →
  length (questions_of (w_session w)) ≤ current_index_of (w_session w) →
  length (questions_of (w_session (run w rs)))
    ≤ current_index_of (w_session (run w rs))
  ∧ questions_of (w_session (run w rs)) = questions_of (w_session w)
  ∧ answers_of (w_session (run w rs)) = answers_of (w_session w)
  ∧ score_of (w_session (run w rs)) = score_of (w_session w)
  ∧ tbl_user_progress (w_db (run w rs)) `suffix_of` tbl_user_progress (w_db w).
Proof.
  unfold run. revert w. induction rs as [|r rs IH]; intros w Hrs Hdone.
  - done.
  - simpl in Hrs. apply andb_prop in Hrs as [Hr Hrs].
    apply negb_true_iff in Hr.
    destruct (handle_after_completion w r Hr Hdone)
      as (Hq & Ha & Hs & Hi & Hp).
    simpl. destruct (IH (handle w r) Hrs) as (Hd' & Hq' & Ha' & Hs' & Hp').
    { rewrite Hq. lia. }
    rewrite Hq', Ha', Hs', Hq, Ha, Hs. split_and!; try done.
    + rewrite <-Hq, <-Hq'. done.
    + by etrans.
Qed.

(** X18.  k requests of GET /next add exactly k to current_index, without
    bound, and change nothing else in the session or the database. *)
Theorem next_adds_one_each_time w k :
  current_index_of (w_session (run w (replicate k GetNext)))
    = current_index_of (w_session w) + k
  ∧ questions_of (w_session (run w (replicate k GetNext)))
    = questions_of (w_session w)
  ∧ answers_of (w_session (run w (replicate k GetNext)))
    = answers_of (w_session w)
  ∧ score_of (w_session (run w (replicate k GetNext))) = score_of (w_session w)
  ∧ w_db (run w (replicate k GetNext)) = w_db w.
Proof.
  unfold run. revert w. induction k as [|k IH]; intros w.
  - simpl. split_and!; try done; lia.
  - cbn [replicate foldl].
    destruct (IH (handle w GetNext)) as (Hi & Hq & Ha & Hs & Hdb).
    rewrite Hi, Hq, Ha, Hs, Hdb. cbn [handle w_session w_db].
    rewrite next_question_session.
    unfold current_index_of, questions_of, answers_of, score_of. simpl.
    split_and!; try done; lia.
Qed.

(** ** The answer log *)

Lemma handle_session w r :
  w_session (handle w r) = w_session w
  ∨ (∃ qs d, w_session (handle w r) = start_session qs d)
  ∨ w_session (handle w r)
    = set_current_index (w_session w) (current_index_of (w_session w) + 1)
  ∨ ∃ question sel is_correct,
      questions_of (w_session w) !! current_index_of (w_session w)
        = Some question
      ∧ is_correct
        = bool_decide (list_to_set (C:=gset string) (q_correct question)
                       = list_to_set sel)
      ∧ w_session (handle w r)
        = {| sess_questions := sess_questions (w_session w);
             sess_current_index := sess_current_index (w_session w);
             sess_score :=
               if is_correct then Some (score_of (w_session w) + 1)
               else sess_score (w_session w);
             sess_answers :=
               Some (answers_of (w_session w)
                     ++ [ {| ar_question_id := q_id question;
                             ar_selected := sel;
                             ar_correct :=
                               elements (list_to_set (C:=gset string)
                                           (q_correct question));
                             ar_is_correct := is_correct |} ]);
             sess_domain := sess_domain (w_session w) |}.
Proof.
  destruct r as [domain limit rnd|rnd|sel now| | |]; simpl; auto.
  - destruct (quiz_session (w_db w) (w_session w) domain limit rnd)
      as [->|(qs & d & _ & ->)]; eauto.
  - destruct (quiz_missed_session (w_db w) (w_session w) rnd)
      as [->|(qs & d & _ & ->)]; eauto.
  - assert (length (questions_of (w_session w)) ≤ current_index_of (w_session w)
            ∨ current_index_of (w_session w)
              < length (questions_of (w_session w))) as [Hle|Hlt] by lia.
    + rewrite (answer_closed _ _ _ _ Hle). auto.
    + destruct (lookup_lt_is_Some_2 _ _ Hlt) as [q Hq].
      rewrite (answer_open _ _ _ _ _ Hq). simpl.
      right. right. right. eexists q, (default [] sel), _.
      split_and!; [done|reflexivity|reflexivity].
  - rewrite next_question_session. auto.
Qed.

Lemma verdict_sound_record (correct sel : list string) qid :
  verdict_sound
    {| ar_question_id := qid;
       ar_selected := sel;
       ar_correct := elements (list_to_set (C:=gset string) correct);
       ar_is_correct :=
         bool_decide (list_to_set (C:=gset string) correct = list_to_set sel) |}.
Proof.
  unfold verdict_sound. simpl. rewrite bool_decide_eq_true.
  rewrite <-same_letters_set. by rewrite list_to_set_elements_L.
Qed.

(** X19.  After any sequence of requests from a session with no entries,
    every logged answer has a verdict that agrees with the set comparison of
    its own selected and correct letters, lists its correct letters without
    repetition, and refers to a question of the session with those correct
    letters. *)
Theorem answer_log_sound db rs a :
  a ∈ answers_of (w_session (run (fresh_world db) rs)) →
  verdict_sound a
  ∧ NoDup (ar_correct a)
  ∧ ∃ q, q ∈ questions_of (w_session (run (fresh_world db) rs))
         ∧ q_id q = ar_question_id a
         ∧ same_letters (q_correct q) (ar_correct a).
Proof.
  unfold run. revert a.
  assert (∀ a, a ∈ answers_of (w_session (fresh_world db)) →
               verdict_sound a ∧ NoDup (ar_correct a)
               ∧ ∃ q, q ∈ questions_of (w_session (fresh_world db))
                      ∧ q_id q = ar_question_id a
                      ∧ same_letters (q_correct q) (ar_correct a)) as Hinit.
  { intros a Ha. by apply elem_of_nil in Ha. }
  revert Hinit. generalize (fresh_world db) as w.
  induction rs as [|r rs IH]; intros w Hw; [done|].
  simpl. apply IH. clear IH. intros a.
  destruct (handle_session w r)
    as [->|[(qs & d & ->)|[->|(q & sel & b & Hq & Hb & ->)]]].
  - apply Hw.
  - intros Ha. by apply elem_of_nil in Ha.
  - apply Hw.
  - unfold answers_of at 1. unfold questions_of at 1. simpl.
    fold (questions_of (w_session w)).
    rewrite elem_of_app, list_elem_of_singleton. intros [Ha| ->].
    + by apply Hw.
    + subst b. split_and!.
      * apply verdict_sound_record.
      * simpl. apply NoDup_elements.
      * exists q. split_and!; [by eapply list_elem_of_lookup_2|done|].
        intros l. simpl. by rewrite elem_of_elements, elem_of_list_to_set.
Qed.

(** ** A quiz taken in turn *)

Lemma round_in_turn w sub :
  current_index_of (w_session w) < length (questions_of (w_session w)) →
  ar_question_id <$> answers_of (w_session w)
  = q_id <$> take (current_index_of (w_session w)) (questions_of (w_session w)) →
  let w' := run w (rounds [sub]) in
  current_index_of (w_session w') = current_index_of (w_session w) + 1
  ∧ questions_of (w_session w') = questions_of (w_session w)
  ∧ ar_question_id <$> answers_of (w_session w')
    = q_id <$> take (current_index_of (w_session w'))
                    (questions_of (w_session w')).
Proof.
  intros Hlt Hids. destruct (lookup_lt_is_Some_2 _ _ Hlt) as [q Hq].
  unfold run, rounds. cbn [mbind list_bind app foldl handle w_session w_db].
  rewrite (answer_open _ _ _ _ _ Hq). cbn [w_session w_db fst snd].
  rewrite next_question_session.
  unfold current_index_of, questions_of, answers_of in *. simpl.
  split_and!; [done..|].
  rewrite fmap_app, Hids. simpl.
  rewrite Nat.add_1_r, (take_S_r _ _ _ Hq), fmap_app. done.
Qed.

(** X20.  In a quiz where each submission is followed by GET /next, for
    no more submissions than questions: current_index and the length of the
    answer log equal the number of submissions, answer i is about question
    i, the question list is unchanged, the index is within bounds and GET
    /results does not raise. *)
Theorem quiz_in_turn db questions domain subs :
  length subs ≤ length questions →
  let w := run {| w_db := db; w_session := start_session questions domain |}
               (rounds subs) in
  current_index_of (w_session w) = length subs
  ∧ length (answers_of (w_session w)) = length subs
  ∧ ar_question_id <$> answers_of (w_session w)
    = q_id <$> take (length subs) questions
  ∧ questions_of (w_session w) = questions
  ∧ index_in_bounds (w_session w)
  ∧ results (w_session w) ≠ Raises IndexError.
Proof.
  intros Hlen.
  assert (∀ subs w,
    current_index_of (w_session w) + length subs
      ≤ length (questions_of (w_session w)) →
    ar_question_id <$> answers_of (w_session w)
    = q_id <$> take (current_index_of (w_session w))
                    (questions_of (w_session w)) →
    current_index_of (w_session (run w (rounds subs)))
    = current_index_of (w_session w) + length subs
    ∧ questions_of (w_session (run w (rounds subs)))
      = questions_of (w_session w)
    ∧ ar_question_id <$> answers_of (w_session (run w (rounds subs)))
      = q_id <$> take (current_index_of (w_session (run w (rounds subs))))
                      (questions_of (w_session (run w (rounds subs)))))
    as Hgen.
  { clear. induction subs as [|sub subs IH]; intros w Hle Hids.
    - simpl. split_and!; try done; lia.
    - simpl in Hle.
      destruct (round_in_turn w sub) as (Hi & Hq & Ha); [lia|done|].
      change (rounds (sub :: subs)) with (rounds [sub] ++ rounds subs).
      unfold run in *. rewrite foldl_app.
      destruct (IH (foldl handle w (rounds [sub]))) as (Hi' & Hq' & Ha').
      { rewrite Hi, Hq. lia. }
      { done. }
      rewrite Hi', Hq', Hi, Hq. split_and!; [cbn [length]; lia|done|].
      rewrite Ha', Hi', Hq', Hi, Hq. done. }
  intros w. subst w.
  destruct (Hgen subs {| w_db := db;
                         w_session := start_session questions domain |})
    as (Hi & Hq & Ha);
    [unfold current_index_of, questions_of; simpl; lia|done|].
  change (current_index_of (w_session {| w_db := db;
            w_session := start_session questions domain |})) with 0 in Hi.
  change (questions_of (w_session {| w_db := db;
            w_session := start_session questions domain |}))
    with questions in Hq.
  rewrite Hi, Hq in Ha. simpl in Hi.
  assert (length (answers_of (w_session (run {| w_db := db;
            w_session := start_session questions domain |} (rounds subs))))
          = length subs) as Hn.
  { rewrite <-(length_fmap ar_question_id), Ha, length_fmap, length_take. lia. }
  split_and!; try done.
  - unfold index_in_bounds. rewrite Hi, Hq. done.
  - destruct (results_returns (w_session (run {| w_db := db;
        w_session := start_session questions domain |} (rounds subs))))
      as [view ->]; [|done].
    rewrite Hn, Hq. done.
Qed.

(** ** Handlers that cannot fail *)


(** X22.  GET /next reports completion exactly when the incremented index
    reaches the number of questions; otherwise it reports total = number of
    questions and current = old index + 2, which lies between 2 and total. *)
Theorem next_question_completed_iff s :
  ((next_question s).2 = Returns (JObj [("completed", JBool true)])
   ↔ length (questions_of s) ≤ current_index_of s + 1)
  ∧ ∀ body,
      (next_question s).2 = Returns body →
      json_get "completed" body = Some (JBool false) →
      ∃ current,
        json_get "current" body = Some (JNum current)
        ∧ json_get "total" body
          = Some (JNum (Z.of_nat (length (questions_of s))))
        ∧ current = Z.of_nat (current_index_of s + 2)
        ∧ (2 ≤ current ≤ Z.of_nat (length (questions_of s)))%Z.
Proof.
  assert (length (questions_of s) ≤ current_index_of s + 1
          ∨ current_index_of s + 1 < length (questions_of s)) as [Hle|Hlt]
    by lia.
  - rewrite (next_question_done _ Hle). simpl. split; [done|].
    intros body [= <-]. done.
  - destruct (lookup_lt_is_Some_2 _ _ Hlt) as [q Hq].
    rewrite (next_question_open _ _ Hq). simpl. split.
    + split; [done|lia].
    + intros body [= <-] _. eexists. split; [done|]. split; [done|].
      split; [f_equal; lia|lia].
Qed.

(** ** Worked cases for the further properties *)

Lemma shuffle_options_raises_sample :
  ((shuffle_options 0 {[0 := sample_options]} [2; 0; 1]).1.1
     = Raises IndexError
   ↔ 10 < length sample_options)
  ∧ (shuffle_options 0 {[0 := sample_options]} [2; 0; 1]).1.2 !! 0
    = Some sample_options.
Proof.
  apply (shuffle_options_raises_iff 0 {[0 := sample_options]} [2; 0; 1]
           sample_options).
  reflexivity.
Defined.

Lemma get_questions_domain_sample :
  q_domain sample_security_question = "Security"
  ∧ ∃ row, row ∈ tbl_questions sample_db
           ∧ q_id sample_security_question = row_id row.
Proof.
  apply (get_questions_domain sample_db "Security" None sample_draws
           sample_security_question).
  - discriminate.
  - discriminate.
  - vm_compute. apply list_elem_of_here.
Defined.

Lemma negative_limit_sample :
  length (get_questions sample_db (Some (default "all" None)) (Some (-1)%Z)
            sample_draws)
  = length (matching_rows sample_db (Some (default "all" None)))
    - Z.to_nat (- -1)
  ∧ (length (matching_rows sample_db (Some (default "all" None)))
       ≤ Z.to_nat (- -1) →
     quiz sample_db empty_session None (Some (-1)%Z) sample_draws
     = (empty_session, Returns (ErrorPage no_questions_message))).
Proof.
  apply (negative_limit_drops_from_end sample_db empty_session None (-1)
           sample_draws).
  lia.
Defined.

Lemma quiz_starts_sample :
  (matching_rows sample_db (Some (default "all" None)) = []
   ∧ quiz sample_db sample_session_answered None None sample_draws
     = (sample_session_answered, Returns (ErrorPage no_questions_message)))
  ∨ (matching_rows sample_db (Some (default "all" None)) ≠ []
     ∧ ∃ q, get_questions sample_db (Some (default "all" None)) None
              sample_draws !! 0 = Some q
            ∧ quiz sample_db sample_session_answered None None sample_draws
              = (start_session
                   (get_questions sample_db (Some (default "all" None)) None
                      sample_draws)
                   (default "all" None),
                 Returns
                   (QuizPage q 1
                      (length (get_questions sample_db
                                 (Some (default "all" None)) None
                                 sample_draws))
                      (default "all" None)))).
Proof.
  apply (quiz_starts_or_keeps_session sample_db sample_session_answered None
           None sample_draws).
  intros n Hn. discriminate Hn.
Defined.

Lemma answer_reports_mastery_sample :
  ∃ (is_correct : bool) db' s' body letters,
    answer sample_db sample_session (Some ["A"; "B"]) 100
      = (db', s', Returns body)
    ∧ json_get "is_correct" body = Some (JBool is_correct)
    ∧ json_get "mastery" body
      = Some (jsonify_mastery
                (add_outcome (get_mastery_info sample_db
                                (q_id sample_question)) is_correct))
    ∧ get_mastery_info db' (q_id sample_question)
      = add_outcome (get_mastery_info sample_db (q_id sample_question))
                    is_correct
    ∧ (∀ q, q ≠ q_id sample_question →
         get_mastery_info db' q = get_mastery_info sample_db q)
    ∧ tbl_user_progress db'
      = tbl_user_progress sample_db ++ [(q_id sample_question, is_correct)]
    ∧ json_get "explanation" body = Some (JStr (q_explanation sample_question))
    ∧ json_get "correct_answers" body = Some (JArr (JStr <$> letters))
    ∧ NoDup letters
    ∧ ∀ l, l ∈ letters ↔ l ∈ q_correct sample_question.
Proof.
  apply (answer_reports_updated_mastery sample_db sample_session
           (Some ["A"; "B"]) 100 sample_question).
  vm_compute. reflexivity.
Defined.

Lemma history_matches_sample :
  history_consistent (w_db (run (fresh_world sample_db) sample_requests)).
Proof.
  apply (history_matches_counters (fresh_world sample_db) sample_requests).
  exact (history_consistent_clear sample_db).
Defined.

Lemma every_row_classified_sample :
  st_needs_practice
    (get_stats (w_db (run (fresh_world sample_db) sample_requests)))
  + st_mastered_count
      (get_stats (w_db (run (fresh_world sample_db) sample_requests)))
  = size (tbl_question_mastery
            (w_db (run (fresh_world sample_db) sample_requests))).
Proof.
  apply (every_row_classified (fresh_world sample_db) sample_requests).
  intros q m Hm. discriminate Hm.
Defined.

Lemma completed_sample_is_absorbing :
  length (questions_of
            (w_session (run (run (fresh_world sample_db) sample_requests)
                            sample_late_requests)))
    ≤ current_index_of
        (w_session (run (run (fresh_world sample_db) sample_requests)
                        sample_late_requests))
  ∧ questions_of
      (w_session (run (run (fresh_world sample_db) sample_requests)
                      sample_late_requests))
    = questions_of (w_session (run (fresh_world sample_db) sample_requests))
  ∧ answers_of
      (w_session (run (run (fresh_world sample_db) sample_requests)
                      sample_late_requests))
    = answers_of (w_session (run (fresh_world sample_db) sample_requests))
  ∧ score_of
      (w_session (run (run (fresh_world sample_db) sample_requests)
                      sample_late_requests))
    = score_of (w_session (run (fresh_world sample_db) sample_requests))
  ∧ tbl_user_progress
      (w_db (run (run (fresh_world sample_db) sample_requests)
                 sample_late_requests))
    `suffix_of` tbl_user_progress
                  (w_db (run (fresh_world sample_db) sample_requests)).
Proof.
  apply (completed_is_absorbing (run (fresh_world sample_db) sample_requests)
           sample_late_requests).
  - reflexivity.
  - vm_compute. lia.
Defined.

Lemma answer_log_sound_sample :
  verdict_sound sample_record
  ∧ NoDup (ar_correct sample_record)
  ∧ ∃ q, q ∈ questions_of
               (w_session (run (fresh_world sample_db) sample_partial_requests))
         ∧ q_id q = ar_question_id sample_record
         ∧ same_letters (q_correct q) (ar_correct sample_record).
Proof.
  apply (answer_log_sound sample_db sample_partial_requests sample_record).
  vm_compute. apply list_elem_of_here.
Defined.

Lemma quiz_in_turn_sample :
  current_index_of
    (w_session (run {| w_db := sample_db;
                       w_session := start_session [sample_question] "all" |}
                    (rounds [(Some ["A"], 100%Z)])))
  = length [(Some ["A"], 100%Z)]
  ∧ length (answers_of
      (w_session (run {| w_db := sample_db;
                         w_session := start_session [sample_question] "all" |}
                      (rounds [(Some ["A"], 100%Z)]))))
    = length [(Some ["A"], 100%Z)]
  ∧ ar_question_id
    <$> answers_of
          (w_session (run {| w_db := sample_db;
                             w_session := start_session [sample_question] "all" |}
                          (rounds [(Some ["A"], 100%Z)])))
    = q_id <$> take (length [(Some ["A"], 100%Z)]) [sample_question]
  ∧ questions_of
      (w_session (run {| w_db := sample_db;
                         w_session := start_session [sample_question] "all" |}
                      (rounds [(Some ["A"], 100%Z)])))
    = [sample_question]
  ∧ index_in_bounds
      (w_session (run {| w_db := sample_db;
                         w_session := start_session [sample_question] "all" |}
                      (rounds [(Some ["A"], 100%Z)])))
  ∧ results
      (w_session (run {| w_db := sample_db;
                         w_session := start_session [sample_question] "all" |}
                      (rounds [(Some ["A"], 100%Z)])))
    ≠ Raises IndexError.
Proof.
  apply (quiz_in_turn sample_db [sample_question] "all"
           [(Some ["A"], 100%Z)]).
  simpl. lia.
Defined.
